(** * The animation layer of the portfolio page (script.js)

    A shallow embedding of the tween engine ([AnimEngine]), of its scroll
    trigger and of the background particle simulation ([initParticles]),
    followed by the properties of the specification that concern them.

    Numbers.  A JavaScript number is read as a rational ([Q]); comparisons of
    numbers are stated with [==].  Rounding of binary floating point, [NaN]
    and the infinities are outside this reading.  A descriptor property that
    may be missing is an [option Q], [None] standing for [undefined]. *)

From Stdlib Require Import QArith Qminmax Qround Qabs Qpower Lqa Ascii DecimalString.
From stdpp Require Import gmap strings list.

Local Open Scope Q_scope.

(** ** What the host (browser) provides *)

(** [pow_real b e] is [Math.pow(b, e)] at an exponent that is not an integer;
    [Number_toString] is the conversion of a number to text used by template
    literals and by assignments to a style field. *)
Class Host := {
  pow_real : Q -> Q -> Q;
  Number_toString : Q -> string
}.

(** ** JavaScript values of the kinds this program uses *)

(** [a < b] on numbers. *)
Definition Qltb (a b : Q) : bool := negb (Qle_bool b a).

(** Truthiness of a property that holds a number or is missing: [undefined]
    and [0] are falsy, every other number is truthy. *)
Definition truthy (v : option Q) : bool :=
  match v with
  | Some q => negb (Qeq_bool q 0)
  | None => false
  end.

(** [v || d] *)
Definition or_default (v : option Q) (d : Q) : Q :=
  match v with
  | Some q => if Qeq_bool q 0 then d else q
  | None => d
  end.

(** [v !== undefined] *)
Definition defined {A} (v : option A) : bool :=
  match v with Some _ => true | None => false end.

(** [v !== undefined ? v : d] *)
Definition if_defined (v : option Q) (d : Q) : Q :=
  match v with Some q => q | None => d end.

(** [Math.pow(b, e)]: repeated multiplication (or its inverse) when the
    exponent is an integer, the host's function otherwise.  The program
    raises 2 to a power and other bases to the powers 2 and 3, so a zero
    base never meets a negative exponent. *)
Definition Math_pow `{Host} (b e : Q) : Q :=
  let e' := Qred e in
  if Pos.eqb (Qden e') 1 then Qpower b (Qnum e') else pow_real b e.

(** [Math.min(a, b)] *)
Definition Math_min (a b : Q) : Q := Qmin a b.

(** The names every object literal inherits from [Object.prototype]: a
    lookup [obj[key]] finds them when [obj] has no own property [key]. *)
Definition Object_prototype_keys : list string :=
  [ "constructor"; "__defineGetter__"; "__defineSetter__"; "hasOwnProperty";
    "__lookupGetter__"; "__lookupSetter__"; "isPrototypeOf";
    "propertyIsEnumerable"; "toString"; "valueOf"; "__proto__";
    "toLocaleString" ]%string.

Module AnimEngine.

(** *** [static easings] *)

Definition linear (t : Q) : Q := t.

Definition easeOutQuad (t : Q) : Q := t * (2 - t).

Definition easeOutBack `{Host} (t : Q) : Q :=
  let c1 := 1.70158 in
  let c3 := c1 + 1 in
  1 + c3 * Math_pow (t - 1) 3 + c1 * Math_pow (t - 1) 2.

Definition easeOutExpo `{Host} (t : Q) : Q :=
  if Qeq_bool t 1 then 1 else 1 - Math_pow 2 (-10 * t).

(** The members of the [easings] object, by name. *)
Inductive easing_name := Linear | EaseOutQuad | EaseOutBack | EaseOutExpo.

Definition easing_fn `{Host} (n : easing_name) : Q -> Q :=
  match n with
  | Linear => linear
  | EaseOutQuad => easeOutQuad
  | EaseOutBack => easeOutBack
  | EaseOutExpo => easeOutExpo
  end.

(** The own properties of [AnimEngine.easings], in source order. *)
Definition easings : list (string * easing_name) :=
  [ ("linear", Linear); ("easeOutQuad", EaseOutQuad);
    ("easeOutBack", EaseOutBack); ("easeOutExpo", EaseOutExpo) ]%string.

(** What a property read on [easings] can give. *)
Inductive member :=
  | Easing (n : easing_name)      (* one of the four functions above *)
  | Inherited (key : string)      (* a member of [Object.prototype] *)
  | Undefined.

Fixpoint own_property (tbl : list (string * easing_name)) (key : string)
  : option easing_name :=
  match tbl with
  | [] => None
  | (k, v) :: rest => if String.eqb k key then Some v else own_property rest key
  end.

Definition is_inherited (key : string) : bool :=
  existsb (String.eqb key) Object_prototype_keys.

(** [AnimEngine.easings[key]] *)
Definition easings_get (key : string) : member :=
  match own_property easings key with
  | Some n => Easing n
  | None => if is_inherited key then Inherited key else Undefined
  end.

(** The key a property read uses for [vars.ease]: the string itself, or the
    text [undefined] when the descriptor has no [ease]. *)
Definition property_key (ease : option string) : string :=
  match ease with Some s => s | None => "undefined"%string end.

(** [AnimEngine.easings[vars.ease] || AnimEngine.easings.easeOutQuad]:
    functions and objects are truthy, [undefined] is not. *)
Definition select_easing (ease : option string) : member :=
  match easings_get (property_key ease) with
  | Undefined => Easing EaseOutQuad
  | m => m
  end.

(** *** Tween descriptors and elements *)

(** A callback is known by a label; calling it is recorded, its body is the
    caller's business. *)
Definition callback := nat.

(** The [vars] object of [to] and [_animateSingle]. *)
Record Vars := {
  v_x : option Q;
  v_y : option Q;
  v_opacity : option Q;
  v_scale : option Q;
  v_rotate : option Q;
  v_duration : option Q;
  v_delay : option Q;
  v_stagger : option Q;
  v_ease : option string;
  v_onComplete : option callback
}.

(** [{ ...vars, delay }] *)
Definition with_delay (vars : Vars) (delay : Q) : Vars :=
  {| v_x := v_x vars; v_y := v_y vars; v_opacity := v_opacity vars;
     v_scale := v_scale vars; v_rotate := v_rotate vars;
     v_duration := v_duration vars; v_delay := Some delay;
     v_stagger := v_stagger vars; v_ease := v_ease vars;
     v_onComplete := v_onComplete vars |}.

(** An element: its identity and the opacity its computed style reports.
    Its inline style is a separate store, a map from field name to text. *)
Record element := {
  el_id : nat;
  computed_opacity : Q
}.

(** The shapes [target] can take.  A collection may hold empty slots
    ([null]); a selector is resolved by the document. *)
Inductive target :=
  | Selector (s : string)
  | Collection (els : list (option element))
  | Single (el : element)
  | OtherTarget.

(** *** [to] *)

(** The body of the [forEach] callback in [to], from position [index] on:
    the calls of [_animateSingle] it makes, in order. *)
Fixpoint to_forEach (vars : Vars) (index : nat) (elements : list (option element))
  : list (element * Vars) :=
  match elements with
  | [] => []
  | None :: rest => to_forEach vars (S index) rest
  | Some el :: rest =>
      let delay :=
        or_default (v_delay vars) 0
        + (if truthy (v_stagger vars)
           then inject_Z (Z.of_nat index) * if_defined (v_stagger vars) 0
           else 0) in
      (el, with_delay vars delay) :: to_forEach vars (S index) rest
  end.

(** The block of [to] under the comment [Resolve target], given
    [document.querySelectorAll]. *)
Definition resolve_target (querySelectorAll : string -> list element)
    (tgt : target) : list (option element) :=
  match tgt with
  | Selector s => map Some (querySelectorAll s)
  | Collection els => els
  | Single el => [Some el]
  | OtherTarget => []
  end.

(** [to(target, vars)]: the calls of [_animateSingle] it makes. *)
Definition to (querySelectorAll : string -> list element)
    (tgt : target) (vars : Vars) : list (element * Vars) :=
  let elements := resolve_target querySelectorAll tgt in
  if Nat.eqb (length elements) 0 then [] else to_forEach vars 0 elements.

(** *** [_animateSingle] *)

(** [startState], [endState] and [current]. *)
Record State := {
  opacity : Q;
  x : Q;
  y : Q;
  scale : Q;
  rotate : Q
}.

(** The variables the closure [tick] captures. *)
Record tween := {
  tw_el : element;
  tw_vars : Vars;
  tw_duration : Q;
  tw_delay : Q;
  tw_easing : Q -> Q;
  tw_startState : State;
  tw_endState : State;
  tw_startTime : Q
}.

(** [_animateSingle(el, vars)] up to the first [requestAnimationFrame(tick)],
    at a moment when [performance.now()] reads [perf_now].  The result is
    [None] when the selected [easing] is a member of [Object.prototype]
    rather than an easing function: what such a member returns is not a
    number. *)
Definition _animateSingle `{Host} (perf_now : Q) (el : element) (vars : Vars)
  : option tween :=
  let duration := or_default (v_duration vars) 1 * 1000 in
  let delay := or_default (v_delay vars) 0 * 1000 in
  match select_easing (v_ease vars) with
  | Easing n =>
      let easing := easing_fn n in
      let startState :=
        {| opacity := computed_opacity el;
           scale := 1; x := 0; y := 0; rotate := 0 |} in
      let endState :=
        {| opacity := if_defined (v_opacity vars) (opacity startState);
           x := if_defined (v_x vars) 0;
           y := if_defined (v_y vars) 0;
           scale := if_defined (v_scale vars) 1;
           rotate := if_defined (v_rotate vars) 0 |} in
      let startTime := perf_now + delay in
      Some {| tw_el := el; tw_vars := vars; tw_duration := duration;
              tw_delay := delay; tw_easing := easing;
              tw_startState := startState; tw_endState := endState;
              tw_startTime := startTime |}
  | _ => None
  end.

(** *** [tick], the per-frame closure of [_animateSingle] *)

(** What a frame does about its own future. *)
Inductive outcome :=
  | Reschedule                          (* [requestAnimationFrame(tick)] *)
  | Complete (called : option callback). (* last frame; [onComplete] if any *)

(** [now - startTime] *)
Definition elapsed (tw : tween) (now : Q) : Q := now - tw_startTime tw.

(** [Math.min(elapsed / duration, 1)] *)
Definition progress (tw : tween) (now : Q) : Q :=
  Math_min (elapsed tw now / tw_duration tw) 1.

(** [easing(progress)] *)
Definition easeVal (tw : tween) (now : Q) : Q := tw_easing tw (progress tw now).

(** The object [current]. *)
Definition current (tw : tween) (now : Q) : State :=
  let startState := tw_startState tw in
  let endState := tw_endState tw in
  let easeVal := easeVal tw now in
  {| opacity := opacity startState + (opacity endState - opacity startState) * easeVal;
     x := x startState + (x endState - x startState) * easeVal;
     y := y startState + (y endState - y startState) * easeVal;
     scale := scale startState + (scale endState - scale startState) * easeVal;
     rotate := rotate startState + (rotate endState - rotate startState) * easeVal |}.

(** The three pieces the transform text is made of; each ends in a space. *)
Definition translate_text `{Host} (c : State) : string :=
  "translate(" +:+ Number_toString (x c) +:+ "px, "
    +:+ Number_toString (y c) +:+ "px) ".

Definition scale_text `{Host} (c : State) : string :=
  "scale(" +:+ Number_toString (scale c) +:+ ") ".

Definition rotate_text `{Host} (c : State) : string :=
  "rotate(" +:+ Number_toString (rotate c) +:+ "deg) ".

(** The local [transform] after the three conditional appends. *)
Definition transform_string `{Host} (vars : Vars) (c : State) : string :=
  let transform := ""%string in
  let transform :=
    if truthy (v_x vars) || truthy (v_y vars)
    then transform +:+ translate_text c else transform in
  let transform :=
    if defined (v_scale vars) then transform +:+ scale_text c else transform in
  let transform :=
    if defined (v_rotate vars) then transform +:+ rotate_text c else transform in
  transform.

(** A string is truthy when it is not empty. *)
Definition nonempty (s : string) : bool :=
  match s with EmptyString => false | String _ _ => true end.

(** The section of [tick] under the comment [Apply]: the writes to
    [el.style]. *)
Definition apply_style `{Host} (vars : Vars) (c : State)
    (style : gmap string string) : gmap string string :=
  let style :=
    if defined (v_opacity vars)
    then <["opacity"%string := Number_toString (opacity c)]> style
    else style in
  let transform := transform_string vars c in
  if nonempty transform then <["transform"%string := transform]> style else style.

(** [tick(now)] on the inline style of the tween's element. *)
Definition tick `{Host} (tw : tween) (now : Q) (style : gmap string string)
  : gmap string string * outcome :=
  if Qltb now (tw_startTime tw) then (style, Reschedule)
  else
    let style := apply_style (tw_vars tw) (current tw now) style in
    if Qltb (progress tw now) 1 then (style, Reschedule)
    else (style, Complete (v_onComplete (tw_vars tw))).

(** *** [scrollTrigger] *)

(** The [options] object: which callbacks were given, and [once]. *)
Record Options := {
  onEnter : bool;
  onLeave : bool;
  threshold : option Q;
  once : bool
}.

(** [options.threshold || 0.2] *)
Definition observer_threshold (options : Options) : Q :=
  or_default (threshold options) 0.2.

(** An [IntersectionObserverEntry], as far as the handler reads it. *)
Record entry := {
  entry_target : nat;
  isIntersecting : bool
}.

(** A call of one of the two callbacks, with the element it was given. *)
Inductive call :=
  | CallEnter (el : nat)
  | CallLeave (el : nat).

Definition call_target (c : call) : nat :=
  match c with CallEnter el => el | CallLeave el => el end.

(** The observer: the elements it observes, and the callback calls made so
    far, oldest first. *)
Record Observer := {
  observed : gset nat;
  calls : list call
}.

Definition record_call (c : call) (o : Observer) : Observer :=
  {| observed := observed o; calls := calls o ++ [c] |}.

(** [observer.unobserve(el)] *)
Definition unobserve (el : nat) (o : Observer) : Observer :=
  {| observed := observed o ∖ {[el]}; calls := calls o |}.

(** The body of [entries.forEach] for one entry. *)
Definition on_entry (options : Options) (o : Observer) (e : entry) : Observer :=
  if isIntersecting e then
    let o := if onEnter options then record_call (CallEnter (entry_target e)) o else o in
    if once options then unobserve (entry_target e) o else o
  else
    if onLeave options then record_call (CallLeave (entry_target e)) o else o.

(** The function given to [new IntersectionObserver(...)]. *)
Definition notify (options : Options) (o : Observer) (entries : list entry)
  : Observer :=
  fold_left (on_entry options) entries o.

(** [scrollTrigger(selector, options)], given what the selector matches:
    no observer at all for an empty match, else one that observes every
    match. *)
Definition scrollTrigger (elements : list nat) : option Observer :=
  if Nat.eqb (length elements) 0 then None
  else Some {| observed := list_to_set elements; calls := [] |}.

(** The host notifies an observer about elements it observes at that
    moment, and about no others. *)
Definition delivered (o : Observer) (entries : list entry) : Prop :=
  Forall (fun e => entry_target e ∈ observed o) entries.

(** A sequence of notifications, each one delivered by the host. *)
Fixpoint host_run (options : Options) (o : Observer) (batches : list (list entry))
  : Prop :=
  match batches with
  | [] => True
  | b :: rest => delivered o b /\ host_run options (notify options o b) rest
  end.

Definition run (options : Options) (o : Observer) (batches : list (list entry))
  : Observer :=
  fold_left (notify options) batches o.

(** An element whose [onEnter] has been called is no longer observed. *)
Definition entered_unobserved (o : Observer) : Prop :=
  forall el, CallEnter el ∈ calls o -> el ∉ observed o.

(** The calls made for one element, oldest first. *)
Definition calls_for (el : nat) (cs : list call) : list call :=
  List.filter (fun c => Nat.eqb (call_target c) el) cs.

(** *** The frames of one tween *)

(** [requestAnimationFrame(tick)]: the host calls [tick] with the time of
    each frame, for as long as the call before asked for another frame.
    [times] are the times of the frames to come; the outcome is [Reschedule]
    when they run out with the tween still scheduled. *)
Fixpoint run_frames `{Host} (tw : tween) (times : list Q)
    (style : gmap string string) : gmap string string * outcome :=
  match times with
  | [] => (style, Reschedule)
  | now :: rest =>
      match tick tw now style with
      | (style', Reschedule) => run_frames tw rest style'
      | (style', Complete called) => (style', Complete called)
      end
  end.

(** [v] lies between [a] and [b], whichever of the two is the larger. *)
Definition between (a b v : Q) : Prop := Qmin a b <= v /\ v <= Qmax a b.

(** A descriptor that asks for none of the properties a frame writes:
    no opacity, scale or rotate, and neither [x] nor [y] truthy. *)
Definition writes_nothing (vars : Vars) : Prop :=
  v_opacity vars = None /\ truthy (v_x vars) = false /\
  truthy (v_y vars) = false /\ v_scale vars = None /\ v_rotate vars = None.

(** The call a handled entry gives rise to when both callbacks are there. *)
Definition call_of (e : entry) : call :=
  if isIntersecting e then CallEnter (entry_target e)
  else CallLeave (entry_target e).

End AnimEngine.

(** ** [initParticles]: the background particle simulation *)

Module Particles.

(** [Math.random] as a source that is read in order: [draws n] is the value
    of the [n]-th call, [next] counts the calls made. *)
Record Random := {
  draws : nat -> Q;
  next : nat
}.

(** Code that calls [Math.random]: the source is threaded through. *)
Definition Rand (A : Type) : Type := Random -> A * Random.

Definition ret {A} (a : A) : Rand A := fun r => (a, r).

Definition bind {A B} (m : Rand A) (k : A -> Rand B) : Rand B :=
  fun r => let (a, r') := m r in k a r'.

Notation "'let*' x ':=' m 'in' k" := (bind m (fun x => k))
  (at level 10, x name, m at level 100, k at level 200).

Definition Math_random : Rand Q :=
  fun r => (draws r (next r), {| draws := draws r; next := S (next r) |}).

(** The fields of a [Particle]. *)
Record Particle := {
  x : Q;
  y : Q;
  vx : Q;
  vy : Q;
  size : Q
}.

(** [new Particle()], on a canvas of the given size. *)
Definition new_Particle (width height : Q) : Rand Particle :=
  let* r1 := Math_random in
  let* r2 := Math_random in
  let* r3 := Math_random in
  let* r4 := Math_random in
  let* r5 := Math_random in
  ret {| x := r1 * width;
         y := r2 * height;
         vx := (r3 - 0.5) * 0.5;
         vy := (r4 - 0.5) * 0.5;
         size := r5 * 2 |}.

(** [Particle.update()] *)
Definition update (width height : Q) (p : Particle) : Particle :=
  let x := x p + vx p in
  let y := y p + vy p in
  let x := if Qltb x 0 then width else x in
  let x := if Qltb width x then 0 else x in
  let y := if Qltb y 0 then height else y in
  let y := if Qltb height y then 0 else y in
  {| x := x; y := y; vx := vx p; vy := vy p; size := size p |}.

(** The variables [initParticles] closes over, and the random source. *)
Record Sim := {
  width : Q;
  height : Q;
  particles : list Particle;
  random : Random
}.

(** [resize()], when the viewport measures [innerWidth] by [innerHeight]. *)
Definition resize (innerWidth innerHeight : Q) (s : Sim) : Sim :=
  {| width := innerWidth; height := innerHeight;
     particles := particles s; random := random s |}.

(** The loop of [init]: [n] more calls of [particles.push(new Particle())]. *)
Fixpoint push_particles (n : nat) (width height : Q) (acc : list Particle)
  : Rand (list Particle) :=
  match n with
  | O => ret acc
  | S n' =>
      let* p := new_Particle width height in
      push_particles n' width height (acc ++ [p])
  end.

(** [init()] *)
Definition init (s : Sim) : Sim :=
  let filled := push_particles 50 (width s) (height s) [] (random s) in
  {| width := width s; height := height s;
     particles := fst filled; random := snd filled |}.

(** The state part of [animate()]: every particle is updated, in order.
    The drawing calls act on the canvas only and are left out. *)
Definition animate (s : Sim) : Sim :=
  {| width := width s; height := height s;
     particles := map (update (width s) (height s)) (particles s);
     random := random s |}.

(** The last three statements of [initParticles] before the first frame:
    [resize(); init();].  [width] and [height] hold no value before that
    call of [resize]; the zeros below are never read. *)
Definition startup (innerWidth innerHeight : Q) (r : Random) : Sim :=
  init (resize innerWidth innerHeight
          {| width := 0; height := 0; particles := []; random := r |}).

(** What happens to a running simulation. *)
Inductive event :=
  | ResizeEvent (innerWidth innerHeight : Q)   (* the window's resize event *)
  | Frame.                                     (* one animation frame *)

(** The listener registered with [addEventListener] is [resize] itself;
    a frame runs [animate]. *)
Definition handle (s : Sim) (ev : event) : Sim :=
  match ev with
  | ResizeEvent w h => resize w h s
  | Frame => animate s
  end.

(** A particle lies within a canvas. *)
Definition within (w h : Q) (p : Particle) : Prop :=
  0 <= x p <= w /\ 0 <= y p <= h.

(** A particle is the one the constructor makes from the five values the
    source gives from position [k] on. *)
Definition drawn_at (w h : Q) (d : nat -> Q) (k : nat) (p : Particle) : Prop :=
  x p = d k * w /\
  y p = d (k + 1)%nat * h /\
  vx p = (d (k + 2)%nat - 0.5) * 0.5 /\
  vy p = (d (k + 3)%nat - 0.5) * 0.5 /\
  size p = d (k + 4)%nat * 2.

(** Every value of the source is in the range of [Math.random]. *)
Definition in_unit_range (d : nat -> Q) : Prop :=
  forall n, 0 <= d n /\ d n < 1.

(** A running simulation through a sequence of events. *)
Definition run_events (s : Sim) (evs : list event) : Sim :=
  fold_left handle evs s.

(** [initParticles()] to the end of its body, [resize(); init(); animate();]:
    the first frame runs at once, before any event can arrive.  This is the
    state the first event finds. *)
Definition initParticles (innerWidth innerHeight : Q) (r : Random) : Sim :=
  animate (startup innerWidth innerHeight r).

(** What a frame puts on the canvas.  [Dot p] stands for the calls of
    [p.draw()] (fill style, [beginPath], a full-circle [arc] at the position
    of [p] with its radius, [fill]); [Segment p p2] for the body of the
    test on [dist] (begin a path, stroke style and line width, [moveTo] the
    position of [p], [lineTo] that of [p2], [stroke]). *)
Inductive drawing :=
  | Clear (w h : Q)               (* [ctx.clearRect(0, 0, width, height)] *)
  | Alpha (a : Q)                 (* [ctx.globalAlpha = a] *)
  | Dot (p : Particle)
  | Segment (p p2 : Particle).

(** The test [dist < 120] of the inner loop, given [Math.sqrt]. *)
Definition near (Math_sqrt : Q -> Q) (p p2 : Particle) : bool :=
  let dx := x p - x p2 in
  let dy := y p - y p2 in
  let dist := Math_sqrt (dx * dx + dy * dy) in
  Qltb dist 120.

(** The inner loop [for (let j = i + 1; ...)] for a particle [p]: [later]
    are the particles behind it in the pool. *)
Definition connections (Math_sqrt : Q -> Q) (p : Particle)
    (later : list Particle) : list drawing :=
  map (Segment p) (List.filter (near Math_sqrt p) later).

(** The body of [particles.forEach] over the pool: each particle is
    updated in place and drawn, then tested against the particles behind
    it, which this frame has not updated yet.  The result is what is drawn
    and the pool after the loop. *)
Fixpoint draw_loop (Math_sqrt : Q -> Q) (width height : Q)
    (pool : list Particle) : list drawing * list Particle :=
  match pool with
  | [] => ([], [])
  | p :: later =>
      let p' := update width height p in
      let done := draw_loop Math_sqrt width height later in
      (Dot p' :: connections Math_sqrt p' later ++ fst done, p' :: snd done)
  end.

(** The particles drawn as dots, in the order they are drawn. *)
Definition dots (ds : list drawing) : list Particle :=
  omap (fun d => match d with Dot p => Some p | _ => None end) ds.

(** Everything [animate()] draws in one frame. *)
Definition animate_drawing (Math_sqrt : Q -> Q) (s : Sim) : list drawing :=
  Clear (width s) (height s) :: Alpha 0.3
    :: fst (draw_loop Math_sqrt (width s) (height s) (particles s)).

End Particles.

(** ** [initCursor]: the custom cursor *)

Module Cursor.

(** The variables [initCursor] closes over, and the inline styles of the
    dot and of the ring. *)
Record State := {
  mx : Q;
  my : Q;
  rx : Q;
  ry : Q;
  dot_style : gmap string string;
  ring_style : gmap string string
}.

(** [`translate(${a}px, ${b}px)`] *)
Definition translate_px `{Host} (a b : Q) : string :=
  "translate(" +:+ Number_toString a +:+ "px, " +:+ Number_toString b +:+ "px)".

(** The [mousemove] listener of the window. *)
Definition mousemove `{Host} (clientX clientY : Q) (s : State) : State :=
  let mx := clientX in
  let my := clientY in
  {| mx := mx; my := my; rx := rx s; ry := ry s;
     dot_style := <["transform"%string := translate_px mx my]> (dot_style s);
     ring_style := ring_style s |}.

(** One run of [loop]. *)
Definition loop `{Host} (s : State) : State :=
  let rx := rx s + (mx s - rx s) * 0.15 in
  let ry := ry s + (my s - ry s) * 0.15 in
  {| mx := mx s; my := my s; rx := rx; ry := ry;
     dot_style := dot_style s;
     ring_style := <["transform"%string := translate_px rx ry]> (ring_style s) |}.

(** The [mouseenter] and [mouseleave] listeners of a link, a button or a
    magnetic element. *)
Definition mouseenter (s : State) : State :=
  {| mx := mx s; my := my s; rx := rx s; ry := ry s;
     dot_style := dot_style s;
     ring_style :=
       <["backgroundColor"%string := "rgba(0,255,65,0.1)"%string]>
         (<["height"%string := "50px"%string]>
            (<["width"%string := "50px"%string]> (ring_style s))) |}.

Definition mouseleave (s : State) : State :=
  {| mx := mx s; my := my s; rx := rx s; ry := ry s;
     dot_style := dot_style s;
     ring_style :=
       <["backgroundColor"%string := "transparent"%string]>
         (<["height"%string := "40px"%string]>
            (<["width"%string := "40px"%string]> (ring_style s))) |}.

(** [initCursor()], given the inline styles of the two elements it looks
    up, or [None] for one that is missing: nothing is set up unless both are
    there; else the variables start at -100 and [loop] runs once at once. *)
Definition initCursor `{Host} (dot ring : option (gmap string string))
  : option State :=
  match dot, ring with
  | Some d, Some r =>
      Some (loop {| mx := -100; my := -100; rx := -100; ry := -100;
                    dot_style := d; ring_style := r |})
  | _, _ => None
  end.

(** What the cursor reacts to. *)
Inductive event :=
  | MouseMove (clientX clientY : Q)
  | AnimationFrame
  | MouseEnter
  | MouseLeave.

Definition handle `{Host} (s : State) (ev : event) : State :=
  match ev with
  | MouseMove cx cy => mousemove cx cy s
  | AnimationFrame => loop s
  | MouseEnter => mouseenter s
  | MouseLeave => mouseleave s
  end.

(** [n] frames in a row. *)
Definition frames `{Host} (n : nat) (s : State) : State := Nat.iter n loop s.

(** A sequence of events, oldest first. *)
Definition run `{Host} (s : State) (evs : list event) : State :=
  fold_left handle evs s.

Definition is_mouse_move (ev : event) : bool :=
  match ev with MouseMove _ _ => true | _ => false end.

End Cursor.

(** ** [initMagnetic]: magnetic buttons *)

Module Magnetic.

(** What [getBoundingClientRect] gives. *)
Record Rect := {
  left : Q;
  top : Q;
  width : Q;
  height : Q
}.

(** The two numbers the [mousemove] listener of a button puts into the
    transform, [x * 0.3] and [y * 0.3]. *)
Definition offset (clientX clientY : Q) (rect : Rect) : Q * Q :=
  let x := clientX - left rect - width rect / 2 in
  let y := clientY - top rect - height rect / 2 in
  (x * 0.3, y * 0.3).

(** The [mousemove] listener, on the inline style of the button. *)
Definition mousemove `{Host} (clientX clientY : Q) (rect : Rect)
    (style : gmap string string) : gmap string string :=
  let (ox, oy) := offset clientX clientY rect in
  <["transform"%string := Cursor.translate_px ox oy]> style.

(** The [mouseleave] listener. *)
Definition mouseleave (style : gmap string string) : gmap string string :=
  <["transform"%string := "translate(0, 0)"%string]> style.

End Magnetic.

(** ** [initToggle]: the animation toggle *)

Module Toggle.

(** [isPlaying], the class list of the button, and the inline style of the
    document body. *)
Record State := {
  isPlaying : bool;
  classList : gset string;
  body_style : gmap string string
}.

(** [classList.toggle(c)] *)
Definition toggle (c : string) (classes : gset string) : gset string :=
  if decide (c ∈ classes) then classes ∖ {[c]} else classes ∪ {[c]}.

(** [initToggle()], given the class list of the button if there is one. *)
Definition initToggle (btn : option (gset string))
    (body : gmap string string) : option State :=
  match btn with
  | None => None
  | Some classes =>
      Some {| isPlaying := true; classList := classes; body_style := body |}
  end.

(** [btn.onclick] *)
Definition onclick (s : State) : State :=
  let isPlaying := negb (isPlaying s) in
  {| isPlaying := isPlaying;
     classList := toggle "disabled" (classList s);
     body_style :=
       <["--play-state"%string :=
           if isPlaying then "running"%string else "paused"%string]>
         (body_style s) |}.

(** [n] clicks in a row. *)
Definition clicks (n : nat) (s : State) : State := Nat.iter n onclick s.

End Toggle.

(** ** The counters of the load sequence *)

Module Counter.

(** The variables the [onEnter] callback of the [.counter] trigger closes
    over, whether its interval timer is still set, and the text of the
    element. *)
Record State := {
  target : Q;
  step : Q;
  current : Q;
  timer : bool;
  innerText : string
}.

(** The [onEnter] callback up to [setInterval], for an element whose
    [data-target] attribute reads as the number [data_target]. *)
Definition onEnter (data_target : Q) (text : string) : State :=
  let target := data_target in
  {| target := target; step := target / 30; current := 0;
     timer := true; innerText := text |}.

(** One firing of the interval; a cleared timer does not fire. *)
Definition interval `{Host} (s : State) : State :=
  if timer s then
    let current := current s + step s in
    let stop := Qle_bool (target s) current in
    let current := if stop then target s else current in
    {| target := target s; step := step s; current := current;
       timer := negb stop;
       innerText := Number_toString (inject_Z (Qfloor current)) +:+ "+" |}
  else s.

(** The state after the interval has had [n] occasions to fire. *)
Definition after `{Host} (n : nat) (s : State) : State := Nat.iter n interval s.

End Counter.

(** ** [initDynamicContent]: marquees and skills cloud *)

Module Content.

(** An entry of [CONFIG.skills]. *)
Record Skill := {
  name : string;
  logo : string;
  level : nat
}.

(** [CONFIG.skills] *)
Definition skills : list Skill :=
  [ {| name := "Java"; logo := "java.svg"; level := 90 |};
    {| name := "JavaScript"; logo := "javascript.svg"; level := 95 |};
    {| name := "React"; logo := "react.svg"; level := 85 |};
    {| name := "HTML5"; logo := "html5.svg"; level := 100 |};
    {| name := "CSS3"; logo := "css3.svg"; level := 90 |};
    {| name := "Docker"; logo := "docker.svg"; level := 75 |};
    {| name := "Git"; logo := "git.svg"; level := 80 |};
    {| name := "Node.js"; logo := "node.svg"; level := 70 |};
    {| name := "Python"; logo := "python.svg"; level := 50 |};
    {| name := "Spring"; logo := "spring.svg"; level := 85 |};
    {| name := "PostgreSQL"; logo := "postgresql.svg"; level := 75 |};
    {| name := "Redis"; logo := "redis.svg"; level := 65 |} ]%string.

(** The getter [CONFIG.logos], over a list of skills. *)
Definition logos (skills : list Skill) : list string := map logo skills.

(** [s.split('.')[0]]: the text before the first dot, all of it when there
    is none. *)
Fixpoint before_dot (s : string) : string :=
  match s with
  | EmptyString => EmptyString
  | String c rest =>
      if Ascii.eqb c "."%char then EmptyString else String c (before_dot rest)
  end.

(** An [img] element, as far as this code sets it up. *)
Record img := {
  src : string;
  className : string;
  alt : string
}.

(** The nodes this code appends: an image, or a [div] holding images. *)
Inductive node :=
  | Img (i : img)
  | Div (class : string) (children : list img).

(** The helper [createLogo].  Its [onerror] handler runs only when the
    image fails to load and is not part of the element. *)
Definition createLogo (name className : string) : img :=
  {| src := "assets/lang/" +:+ name;
     className := className;
     alt := before_dot name +:+ " Logo" |}.

(** [items.forEach(x => parent.appendChild(make(x)))] on the children of
    [parent]. *)
Definition append_each {A} (make : A -> node) (items : list A)
    (children : list node) : list node :=
  fold_left (fun children x => children ++ [make x]) items children.

(** The block [1. Fill Marquees], on the children of the two marquees;
    [None] is a marquee that [getElementById] does not find. *)
Definition fill_marquees (skills : list Skill)
    (topMarquee botMarquee : option (list node))
  : option (list node) * option (list node) :=
  match topMarquee, botMarquee with
  | Some top, Some bot =>
      let marqueeLogos := logos skills in
      let marqueeList := marqueeLogos ++ marqueeLogos ++ marqueeLogos in
      (Some (append_each (fun logo => Img (createLogo logo "marquee-logo"))
                         marqueeList top),
       Some (append_each (fun logo => Img (createLogo logo "marquee-logo"))
                         marqueeList bot))
  | _, _ => (topMarquee, botMarquee)
  end.

(** The block [2. Fill Skills Cloud]. *)
Definition fill_skills_cloud (skills : list Skill)
    (skillsContainer : option (list node)) : option (list node) :=
  match skillsContainer with
  | Some children =>
      Some (append_each
              (fun skill => Div "skill-bubble" [createLogo (logo skill) ""])
              skills children)
  | None => None
  end.

End Content.

(** ** A host to run examples on *)

(** Decimal digits of [r / d] after the point, for [0 <= r < d]; at most
    [fuel] of them, none after the expansion ends. *)
Fixpoint fraction_digits (fuel : nat) (r d : Z) : string :=
  match fuel with
  | O => ""
  | S fuel' =>
      if (r =? 0)%Z then ""
      else String (Ascii.ascii_of_nat (48 + Z.to_nat (10 * r / d)))
                  (fraction_digits fuel' ((10 * r) mod d)%Z d)
  end.

(** A number in decimal: sign, integer part, and a fractional part when
    there is one. *)
Definition decimal_text (q : Q) : string :=
  let n := Z.abs (Qnum q) in
  let d := Zpos (Qden q) in
  (if (Qnum q <? 0)%Z then "-" else "")
    +:+ NilZero.string_of_uint (N.to_uint (Z.to_N (n / d)))
    +:+ (if (n mod d =? 0)%Z then ""
         else "." +:+ fraction_digits 17 (n mod d)%Z d).

(** Numbers are shown in decimal; powers with a fractional exponent do not
    occur in the examples, and read as [1]. *)
Definition sample_host : Host :=
  {| pow_real := fun _ _ => 1; Number_toString := decimal_text |}.

(** An element that is fully opaque. *)
Definition sample_element : AnimEngine.element :=
  {| AnimEngine.el_id := 0; AnimEngine.computed_opacity := 1 |}.

(** The descriptor [{ duration: 0 }]. *)
Definition zero_duration_vars : AnimEngine.Vars :=
  {| AnimEngine.v_x := None; AnimEngine.v_y := None;
     AnimEngine.v_opacity := None; AnimEngine.v_scale := None;
     AnimEngine.v_rotate := None; AnimEngine.v_duration := Some 0;
     AnimEngine.v_delay := None; AnimEngine.v_stagger := None;
     AnimEngine.v_ease := None; AnimEngine.v_onComplete := None |}.

(** The descriptor [{ x: 100, duration: 1, ease: 'linear' }]. *)
Definition half_way_vars : AnimEngine.Vars :=
  {| AnimEngine.v_x := Some 100; AnimEngine.v_y := None;
     AnimEngine.v_opacity := None; AnimEngine.v_scale := None;
     AnimEngine.v_rotate := None; AnimEngine.v_duration := Some 1;
     AnimEngine.v_delay := None; AnimEngine.v_stagger := None;
     AnimEngine.v_ease := Some "linear"%string;
     AnimEngine.v_onComplete := None |}.

(** The descriptor [{ opacity: 1, stagger: 0.1, delay: 0 }]. *)
Definition cascade_vars : AnimEngine.Vars :=
  {| AnimEngine.v_x := None; AnimEngine.v_y := None;
     AnimEngine.v_opacity := Some 1; AnimEngine.v_scale := None;
     AnimEngine.v_rotate := None; AnimEngine.v_duration := None;
     AnimEngine.v_delay := Some 0; AnimEngine.v_stagger := Some 0.1;
     AnimEngine.v_ease := None; AnimEngine.v_onComplete := None |}.

(** The descriptor of the fade-up reveal,
    [{ opacity: 1, y: 0, duration: 0.8, ease: 'easeOutBack' }]. *)
Definition fade_up_vars : AnimEngine.Vars :=
  {| AnimEngine.v_x := None; AnimEngine.v_y := Some 0;
     AnimEngine.v_opacity := Some 1; AnimEngine.v_scale := None;
     AnimEngine.v_rotate := None; AnimEngine.v_duration := Some 0.8;
     AnimEngine.v_delay := None; AnimEngine.v_stagger := None;
     AnimEngine.v_ease := Some "easeOutBack"%string;
     AnimEngine.v_onComplete := None |}.

(** The descriptor of the hero visual's entrance,
    [{ opacity: 1, scale: 1, x: 0, duration: 1, delay: 0.4,
       ease: 'easeOutExpo' }]. *)
Definition hero_visual_vars : AnimEngine.Vars :=
  {| AnimEngine.v_x := Some 0; AnimEngine.v_y := None;
     AnimEngine.v_opacity := Some 1; AnimEngine.v_scale := Some 1;
     AnimEngine.v_rotate := None; AnimEngine.v_duration := Some 1;
     AnimEngine.v_delay := Some 0.4; AnimEngine.v_stagger := None;
     AnimEngine.v_ease := Some "easeOutExpo"%string;
     AnimEngine.v_onComplete := None |}.

(** An inline style with a colour and an opacity already set. *)
Definition sample_style : gmap string string :=
  <["color"%string := "red"%string]> (<["opacity"%string := "0.3"%string]> ∅).

(** Both callbacks given, and [once: true]. *)
Definition once_options : AnimEngine.Options :=
  {| AnimEngine.onEnter := true; AnimEngine.onLeave := true;
     AnimEngine.threshold := None; AnimEngine.once := true |}.

(** Element 7 is reported out of view, then in view. *)
Definition out_of_view : AnimEngine.entry :=
  {| AnimEngine.entry_target := 7%nat; AnimEngine.isIntersecting := false |}.

Definition in_view : AnimEngine.entry :=
  {| AnimEngine.entry_target := 7%nat; AnimEngine.isIntersecting := true |}.

(** The observer [scrollTrigger] makes when the selector matches elements 7
    and 8. *)
Definition sample_observer : AnimEngine.Observer :=
  {| AnimEngine.observed := list_to_set [7%nat; 8%nat]; AnimEngine.calls := [] |}.

(** A random source that alternates between 0.25 and 0.75. *)
Definition sample_random : Particles.Random :=
  {| Particles.draws := fun n => if Nat.even n then 0.25 else 0.75;
     Particles.next := 0 |}.

(** A particle a tenth of a unit left of the right edge of a canvas 100
    wide, drifting right by 0.05 a frame. *)
Definition slow_particle : Particles.Particle :=
  {| Particles.x := 99.9; Particles.y := 50; Particles.vx := 0.05;
     Particles.vy := 0; Particles.size := 1 |}.

(** The same particle drifting right by 0.25 a frame. *)
Definition fast_particle : Particles.Particle :=
  {| Particles.x := 99.9; Particles.y := 50; Particles.vx := 0.25;
     Particles.vy := 0; Particles.size := 1 |}.

(** The descriptor [{ opacity: 0, duration: -1 }]. *)
Definition backwards_vars : AnimEngine.Vars :=
  {| AnimEngine.v_x := None; AnimEngine.v_y := None;
     AnimEngine.v_opacity := Some 0; AnimEngine.v_scale := None;
     AnimEngine.v_rotate := None; AnimEngine.v_duration := Some (-1);
     AnimEngine.v_delay := None; AnimEngine.v_stagger := None;
     AnimEngine.v_ease := None; AnimEngine.v_onComplete := Some 1%nat |}.

(** The descriptor of the loader bar as the engine reads it: of
    [{ width: '100%', duration: 1, ease: 'linear', onComplete }] it knows
    the duration, the easing and the callback, and no property to write. *)
Definition loader_bar_vars : AnimEngine.Vars :=
  {| AnimEngine.v_x := None; AnimEngine.v_y := None;
     AnimEngine.v_opacity := None; AnimEngine.v_scale := None;
     AnimEngine.v_rotate := None; AnimEngine.v_duration := Some 1;
     AnimEngine.v_delay := None; AnimEngine.v_stagger := None;
     AnimEngine.v_ease := Some "linear"%string;
     AnimEngine.v_onComplete := Some 1%nat |}.


(** A cursor whose mouse is at (300, 200) and whose ring is still at
    (-100, -100). *)
Definition sample_cursor : Cursor.State :=
  {| Cursor.mx := 300; Cursor.my := 200; Cursor.rx := -100; Cursor.ry := -100;
     Cursor.dot_style := ∅; Cursor.ring_style := ∅ |}.

(** A square root for examples: exact on the squares of whole numbers. *)
Definition sample_sqrt (q : Q) : Q := inject_Z (Z.sqrt (Qfloor q)).

(** A particle at rest at [pos] on the horizontal line [y = 300]. *)
Definition resting_at (pos : Q) : Particles.Particle :=
  {| Particles.x := pos; Particles.y := 300; Particles.vx := 0;
     Particles.vy := 0; Particles.size := 1 |}.

(* ===================================================================== *)
(** * Properties *)
(* ===================================================================== *)

Import AnimEngine.

(** ** Numbers *)

Lemma Qltb_lt (a b : Q) : Qltb a b = true <-> a < b.
Proof.
  unfold Qltb. rewrite negb_true_iff. split.
  - intros E. apply Qnot_le_lt. intros L.
    apply Qle_bool_iff in L. congruence.
  - intros L. destruct (Qle_bool b a) eqn:E; [|reflexivity].
    apply Qle_bool_iff in E. lra.
Qed.

Lemma Qltb_ge (a b : Q) : Qltb a b = false <-> b <= a.
Proof.
  unfold Qltb. rewrite negb_false_iff. apply Qle_bool_iff.
Qed.

Lemma truthy_false (v : option Q) :
  truthy v = false <-> v = None \/ exists q, v = Some q /\ q == 0.
Proof.
  destruct v as [q|]; simpl.
  - rewrite negb_false_iff, Qeq_bool_iff. split.
    + intros E. right. eauto.
    + intros [D | (q' & [= <-] & E)]; [discriminate | exact E].
  - split; auto.
Qed.

Lemma or_default_falsy (v : option Q) (d : Q) :
  truthy v = false -> or_default v d = d.
Proof.
  destruct v as [q|]; simpl; [|reflexivity].
  rewrite negb_false_iff. intros ->. reflexivity.
Qed.

Lemma or_default_truthy (q d : Q) : ~ q == 0 -> or_default (Some q) d = q.
Proof.
  intros N. simpl. destruct (Qeq_bool q 0) eqn:E; [|reflexivity].
  apply Qeq_bool_iff in E. contradiction.
Qed.

(** [Math.pow] at the two integer exponents the easings use. *)
Lemma Math_pow_3 `{Host} (b : Q) : Math_pow b 3 == b * b * b.
Proof. unfold Math_pow. simpl. ring. Qed.

Lemma Math_pow_2 `{Host} (b : Q) : Math_pow b 2 == b * b.
Proof. unfold Math_pow. simpl. ring. Qed.

(** ** The easing library *)

Lemma easeOutBack_cubic `{Host} (t : Q) :
  easeOutBack t ==
  1 + (1.70158 + 1) * ((t - 1) * (t - 1) * (t - 1))
    + 1.70158 * ((t - 1) * (t - 1)).
Proof.
  unfold easeOutBack. cbv zeta. rewrite Math_pow_3, Math_pow_2. reflexivity.
Qed.

(** C8.  [easeOutBack t] is [1 + c3 (t-1)^3 + c1 (t-1)^2] with
    [c1 = 1.70158] and [c3 = c1 + 1]; it exceeds 1 somewhere strictly
    between 0 and 1 (at [t = 1/2], where it is 1.0876975); and it is exactly
    1 at [t = 1]. *)
Theorem easeOutBack_overshoots_and_settles `{Host} :
  (forall t : Q,
     let c1 := 1.70158 in
     let c3 := c1 + 1 in
     easeOutBack t == 1 + c3 * (t - 1) ^ 3 + c1 * (t - 1) ^ 2) /\
  (exists t : Q, 0 < t /\ t < 1 /\ 1 < easeOutBack t) /\
  easeOutBack 0.5 == 1.0876975 /\
  easeOutBack 1 == 1.
Proof.
  split; [|split; [|split]].
  - intros t. cbv zeta. rewrite easeOutBack_cubic. simpl. ring.
  - exists 0.5. rewrite easeOutBack_cubic. repeat split; reflexivity.
  - rewrite easeOutBack_cubic. reflexivity.
  - rewrite easeOutBack_cubic. reflexivity.
Qed.

(** A name the library has falls to its own function; a name it lacks and
    [Object.prototype] lacks too falls back to [easeOutQuad]. *)
Lemma select_easing_fallback (name : string) :
  own_property easings name = None ->
  is_inherited name = false ->
  select_easing (Some name) = Easing EaseOutQuad.
Proof.
  intros Hown Hinh. unfold select_easing, easings_get. cbn [property_key].
  rewrite Hown, Hinh. reflexivity.
Qed.

Lemma select_easing_missing : select_easing None = Easing EaseOutQuad.
Proof. reflexivity. Qed.

(** C7.  The name [bogus] falls back to [easeOutQuad], and a tween is made
    with that function.  The name [toString] is not in the easing library
    either, but the read [easings["toString"]] finds the member every object
    inherits, which is truthy: no fallback takes place, and what the frame
    then calls is not [easeOutQuad]. *)
Theorem select_easing_inherited_member `{Host} :
  select_easing (Some "bogus"%string) = Easing EaseOutQuad /\
  easing_fn EaseOutQuad 0.5 == 0.75 /\
  own_property easings "toString" = None /\
  select_easing (Some "toString"%string) = Inherited "toString" /\
  select_easing (Some "toString"%string) <> Easing EaseOutQuad.
Proof.
  split; [reflexivity|]. split; [reflexivity|]. split; [reflexivity|].
  split; [reflexivity|]. discriminate.
Qed.

(** ** The tween engine *)

(** What [_animateSingle] leaves in the closure. *)
Lemma animateSingle_fields `{Host} perf_now el vars tw :
  _animateSingle perf_now el vars = Some tw ->
  tw_el tw = el /\ tw_vars tw = vars /\
  tw_duration tw = or_default (v_duration vars) 1 * 1000 /\
  tw_delay tw = or_default (v_delay vars) 0 * 1000 /\
  tw_startTime tw = perf_now + or_default (v_delay vars) 0 * 1000 /\
  (exists n, select_easing (v_ease vars) = Easing n /\ tw_easing tw = easing_fn n) /\
  tw_startState tw =
    {| opacity := computed_opacity el; x := 0; y := 0; scale := 1; rotate := 0 |} /\
  tw_endState tw =
    {| opacity := if_defined (v_opacity vars) (computed_opacity el);
       x := if_defined (v_x vars) 0; y := if_defined (v_y vars) 0;
       scale := if_defined (v_scale vars) 1;
       rotate := if_defined (v_rotate vars) 0 |}.
Proof.
  unfold _animateSingle. destruct (select_easing (v_ease vars)) eqn:E; try discriminate.
  intros [= <-]. simpl. repeat split; eauto.
Qed.

(** A tween is made whenever the easing name is one [Object.prototype] does
    not answer to. *)
Lemma animateSingle_defined `{Host} perf_now el vars :
  is_inherited (property_key (v_ease vars)) = false ->
  exists tw, _animateSingle perf_now el vars = Some tw.
Proof.
  intros Hinh. unfold _animateSingle, select_easing, easings_get.
  destruct (own_property easings (property_key (v_ease vars))); simpl; eauto.
  rewrite Hinh. simpl. eauto.
Qed.

(** The duration of a tween is never zero, whatever the descriptor says. *)
Lemma duration_never_zero `{Host} perf_now el vars tw :
  _animateSingle perf_now el vars = Some tw -> ~ tw_duration tw == 0.
Proof.
  intros Htw. apply animateSingle_fields in Htw as (_ & _ & -> & _).
  destruct (v_duration vars) as [q|]; simpl; [|lra].
  destruct (Qeq_bool q 0) eqn:E; [lra|].
  apply Qeq_bool_neq in E. lra.
Qed.

(** C9.  When the descriptor's [duration] is missing or 0 (the falsy
    values), the tween runs with 1 second, that is 1000 milliseconds: the
    divisor of [elapsed / duration] is strictly positive, and every frame
    divides by 1000. *)
Theorem falsy_duration_is_one_second `{Host} perf_now el vars tw :
  truthy (v_duration vars) = false ->
  _animateSingle perf_now el vars = Some tw ->
  tw_duration tw == 1000 /\
  0 < tw_duration tw /\
  ~ tw_duration tw == 0 /\
  forall now, progress tw now == Math_min ((now - tw_startTime tw) / 1000) 1.
Proof.
  intros Hfalsy Htw.
  pose proof (duration_never_zero _ _ _ _ Htw) as Hnz.
  apply animateSingle_fields in Htw as (_ & _ & Hd & _).
  rewrite (or_default_falsy _ 1 Hfalsy) in Hd.
  assert (Hd' : tw_duration tw == 1000) by (rewrite Hd; reflexivity).
  split; [exact Hd'|]. split; [rewrite Hd'; reflexivity|]. split; [exact Hnz|].
  intros now. unfold progress, elapsed, Math_min. rewrite Hd'. reflexivity.
Qed.

Lemma falsy_duration_is_one_second_witness :
  exists tw,
    @_animateSingle sample_host 0 sample_element zero_duration_vars = Some tw /\
    tw_duration tw == 1000 /\
    0 < tw_duration tw /\
    ~ tw_duration tw == 0 /\
    forall now, progress tw now == Math_min ((now - tw_startTime tw) / 1000) 1.
Proof.
  eexists. split; [reflexivity|].
  apply (@falsy_duration_is_one_second sample_host 0 sample_element
           zero_duration_vars); reflexivity.
Defined.

(** After the delay phase a frame applies the interpolated state and
    nothing else. *)
Lemma tick_after_delay `{Host} tw now style :
  tw_startTime tw <= now ->
  fst (tick tw now style) = apply_style (tw_vars tw) (current tw now) style.
Proof.
  intros Hnow. unfold tick.
  apply Qltb_ge in Hnow. rewrite Hnow.
  destruct (Qltb (progress tw now) 1); reflexivity.
Qed.

(** During the delay phase a frame changes nothing and asks for another. *)
Lemma tick_in_delay `{Host} tw now style :
  now < tw_startTime tw -> tick tw now style = (style, Reschedule).
Proof.
  intros Hnow. unfold tick. apply Qltb_lt in Hnow. rewrite Hnow. reflexivity.
Qed.

Lemma progress_le_1 tw now : progress tw now <= 1.
Proof. unfold progress, Math_min. apply Q.le_min_r. Qed.

(** C5.  On a frame after the delay phase, progress is
    [min(elapsed / duration, 1)], the easing is applied to it, and every
    property is its start value plus (end - start) times the eased progress;
    this interpolated state is what the frame writes.  With a start of 0, an
    end of 100, a duration of 1 second and linear easing, the value half a
    second (500 milliseconds) after the start is 50. *)
Theorem frame_interpolates_linearly `{Host} perf_now el vars tw now style :
  _animateSingle perf_now el vars = Some tw ->
  tw_startTime tw <= now ->
  let p := Math_min ((now - tw_startTime tw) / tw_duration tw) 1 in
  let e := tw_easing tw p in
  let c := current tw now in
  progress tw now = p /\
  p <= 1 /\
  opacity c == computed_opacity el
               + (if_defined (v_opacity vars) (computed_opacity el)
                  - computed_opacity el) * e /\
  x c == 0 + (if_defined (v_x vars) 0 - 0) * e /\
  y c == 0 + (if_defined (v_y vars) 0 - 0) * e /\
  scale c == 1 + (if_defined (v_scale vars) 1 - 1) * e /\
  rotate c == 0 + (if_defined (v_rotate vars) 0 - 0) * e /\
  fst (tick tw now style) = apply_style vars c style /\
  exists tw', _animateSingle perf_now el half_way_vars = Some tw' /\
              x (tw_startState tw') == 0 /\
              x (tw_endState tw') == 100 /\
              tw_duration tw' == 1000 /\
              x (current tw' (tw_startTime tw' + 500)) == 50.
Proof.
  intros Htw Hnow p e c.
  pose proof (tick_after_delay tw now style Hnow) as Htick.
  apply animateSingle_fields in Htw as (_ & Hv & _ & _ & _ & _ & Hs & He).
  split; [reflexivity|].
  split; [apply (progress_le_1 tw now)|].
  subst c. unfold current, easeVal. rewrite Hs, He. cbn [opacity x y scale rotate].
  fold e. change (tw_easing tw (progress tw now)) with e.
  do 5 (split; [reflexivity|]).
  split; [rewrite Htick, Hv; unfold current, easeVal; rewrite Hs, He; reflexivity|].
  eexists. split; [reflexivity|].
  cbn [tw_startState tw_endState tw_duration x].
  split; [reflexivity|]. split; [reflexivity|]. split; [reflexivity|].
  unfold current, easeVal, progress, elapsed, Math_min.
  cbn [tw_startState tw_endState tw_duration tw_startTime tw_easing x
       easing_fn linear if_defined v_x half_way_vars or_default v_duration].
  assert (Hp : (perf_now + 0 * 1000 + 500 - (perf_now + 0 * 1000)) / (1 * 1000) == 1 # 2)
    by (field).
  rewrite Hp. rewrite Q.min_l by (compute; discriminate). reflexivity.
Qed.

Lemma frame_interpolates_linearly_witness :
  exists tw,
    @_animateSingle sample_host 0 sample_element half_way_vars = Some tw /\
    tw_startTime tw <= 500 /\
    progress tw 500 == 0.5 /\
    x (current tw 500) == 50 /\
    fst (@tick sample_host tw 500 ∅) !! "transform"%string
      = Some "translate(50px, 0px) "%string.
Proof.
  eexists. split; [reflexivity|].
  split; [compute; discriminate|].
  destruct (@frame_interpolates_linearly sample_host 0 sample_element
              half_way_vars _ 500 ∅ eq_refl)
    as (Hp & _ & _ & Hx & _ & _ & _ & Htick & _).
  - compute; discriminate.
  - split; [rewrite Hp; reflexivity|].
    split; [rewrite Hx; reflexivity|].
    rewrite Htick. vm_compute. reflexivity.
Defined.

(** The stagger term of [to]: [index * stagger], also when the stagger is 0
    and the conditional takes its other branch. *)
Lemma stagger_term vars s (index : nat) :
  v_stagger vars = Some s ->
  (if truthy (v_stagger vars)
   then inject_Z (Z.of_nat index) * if_defined (v_stagger vars) 0
   else 0) == inject_Z (Z.of_nat index) * s.
Proof.
  intros ->. simpl. destruct (Qeq_bool s 0) eqn:E; simpl; [|reflexivity].
  apply Qeq_bool_iff in E. rewrite E. ring.
Qed.

(** [vars.delay || 0] is the explicit delay, or 0 when there is none. *)
Lemma explicit_delay (v : option Q) : or_default v 0 == if_defined v 0.
Proof.
  destruct v as [q|]; simpl; [|reflexivity].
  destruct (Qeq_bool q 0) eqn:E; [|reflexivity].
  apply Qeq_bool_iff in E. rewrite E. reflexivity.
Qed.

(** Calls are made in the order of the elements, empty slots left out. *)
Lemma to_forEach_order vars elements : forall k,
  map fst (to_forEach vars k elements) = omap id elements.
Proof.
  induction elements as [|[e|] rest IH]; intros k; simpl.
  - reflexivity.
  - f_equal. apply IH.
  - apply IH.
Qed.

(** The call made for the element at position [i], when the loop starts
    counting at [k]. *)
Lemma to_forEach_lookup vars s :
  v_stagger vars = Some s ->
  forall (elements : list (option element)) (k i : nat) (el : element),
    elements !! i = Some (Some el) ->
    exists d,
      to_forEach vars k elements !! length (omap id (take i elements))
        = Some (el, with_delay vars d) /\
      d == or_default (v_delay vars) 0 + inject_Z (Z.of_nat (k + i)) * s.
Proof.
  intros Hs. induction elements as [|a rest IH]; intros k i el Hi.
  - destruct i; discriminate.
  - destruct i as [|i'].
    + simpl in Hi. injection Hi as ->. simpl. eexists. split; [reflexivity|].
      rewrite (stagger_term vars s k Hs). rewrite Nat.add_0_r. reflexivity.
    + simpl in Hi. destruct (IH (S k) i' el Hi) as (d & Hd & Hq).
      exists d. rewrite Nat.add_succ_r. split; [|exact Hq].
      destruct a as [e|]; simpl; exact Hd.
Qed.

(** C6.  With a stagger [s] given, the element at index [i] of the resolved
    target is animated with the delay [explicit delay + i * s] (a missing
    explicit delay counts as 0); calls follow the order of the elements,
    index 0 first.  Over three elements with stagger 0.1 and delay 0, the
    element at index 2 gets the delay 0.2, and its tween starts 200
    milliseconds after it is made. *)
Theorem stagger_delay_by_index `{Host} querySelectorAll tgt vars s i el :
  let elements := resolve_target querySelectorAll tgt in
  v_stagger vars = Some s ->
  elements !! i = Some (Some el) ->
  map fst (to querySelectorAll tgt vars) = omap id elements /\
  (exists d,
     to querySelectorAll tgt vars !! length (omap id (take i elements))
       = Some (el, with_delay vars d) /\
     d == if_defined (v_delay vars) 0 + inject_Z (Z.of_nat i) * s) /\
  (forall e0 e1 e2 perf_now, exists d tw,
     to querySelectorAll (Collection [Some e0; Some e1; Some e2]) cascade_vars !! 2%nat
       = Some (e2, with_delay cascade_vars d) /\
     d == 0.2 /\
     _animateSingle perf_now e2 (with_delay cascade_vars d) = Some tw /\
     tw_startTime tw == perf_now + 200).
Proof.
  intros elements Hs Hi.
  assert (Hlen : Nat.eqb (length elements) 0 = false).
  { apply Nat.eqb_neq. apply lookup_lt_Some in Hi. lia. }
  unfold to. fold elements. rewrite Hlen.
  split; [apply to_forEach_order|].
  split.
  { destruct (to_forEach_lookup vars s Hs elements 0 i el Hi) as (d & Hd & Hq).
    exists d. split; [exact Hd|]. rewrite Hq, explicit_delay. reflexivity. }
  intros e0 e1 e2 perf_now. eexists. eexists.
  split; [reflexivity|]. split; [reflexivity|]. split; [reflexivity|].
  simpl. ring.
Qed.

Lemma stagger_delay_by_index_witness :
  let e0 := {| el_id := 0; computed_opacity := 0 |} in
  let e1 := {| el_id := 1; computed_opacity := 0 |} in
  let e2 := {| el_id := 2; computed_opacity := 0 |} in
  let calls := to (fun _ => []) (Collection [Some e0; None; Some e1; Some e2]) cascade_vars in
  map fst calls = [e0; e1; e2] /\
  exists d, calls !! 2%nat = Some (e2, with_delay cascade_vars d) /\ d == 0.3.
Proof.
  intros e0 e1 e2 calls.
  destruct (@stagger_delay_by_index sample_host (fun _ => [])
              (Collection [Some e0; None; Some e1; Some e2])
              cascade_vars 0.1 3 e2 eq_refl eq_refl)
    as (Hord & (d & Hd & Hq) & _).
  split; [exact Hord|].
  exists d. split; [exact Hd|]. rewrite Hq. reflexivity.
Defined.

Lemma append_empty_r (s : string) : s +:+ "" = s.
Proof.
  induction s as [|a s IH]; [reflexivity|].
  change (String a (s +:+ "") = String a s). now rewrite IH.
Qed.

Lemma append_append (s1 s2 s3 : string) :
  (s1 +:+ s2) +:+ s3 = s1 +:+ (s2 +:+ s3).
Proof.
  induction s1 as [|a s1 IH]; [reflexivity|].
  change (String a ((s1 +:+ s2) +:+ s3) = String a (s1 +:+ (s2 +:+ s3))).
  now rewrite IH.
Qed.

(** The transform text is the three pieces in the order translate, scale,
    rotate, each one present or absent as its condition says. *)
Lemma transform_string_parts `{Host} vars c :
  transform_string vars c =
    (if truthy (v_x vars) || truthy (v_y vars) then translate_text c else "")
    +:+ (if defined (v_scale vars) then scale_text c else "")
    +:+ (if defined (v_rotate vars) then rotate_text c else "").
Proof.
  unfold transform_string.
  destruct (truthy (v_x vars) || truthy (v_y vars));
    destruct (defined (v_scale vars)); destruct (defined (v_rotate vars));
    change (String.append "" ?s) with s;
    rewrite ?append_append, ?append_empty_r; reflexivity.
Qed.

(** The scale and rotate pieces are there exactly when the descriptor has
    the property; the translate piece when [x] or [y] is a number other
    than 0. *)
Lemma translate_condition vars :
  truthy (v_x vars) || truthy (v_y vars) = true <->
  (exists q, v_x vars = Some q /\ ~ q == 0) \/
  (exists q, v_y vars = Some q /\ ~ q == 0).
Proof.
  rewrite orb_true_iff.
  assert (T : forall v, truthy v = true <-> exists q, v = Some q /\ ~ q == 0).
  { intros [q|]; simpl.
    - rewrite negb_true_iff. split.
      + intros E. exists q. split; [reflexivity|]. now apply Qeq_bool_neq.
      + intros (q' & [= <-] & N). destruct (Qeq_bool q 0) eqn:E; [|reflexivity].
        apply Qeq_bool_iff in E. contradiction.
    - split; [discriminate|]. intros (q & D & _). discriminate. }
  rewrite !T. reflexivity.
Qed.

(** C2.  The reveal descriptors of the page ask for [y: 0] and for [x: 0].
    The property is requested, yet the frame leaves the translate piece out:
    the test on [x] and [y] is for a truthy value, and 0 is not one.  The
    fade-up tween produces no transform text at all, the hero tween only the
    scale piece.  For scale and rotate the test is for presence. *)
Theorem translate_omitted_when_offset_is_zero `{Host} (c : State) :
  defined (v_y fade_up_vars) = true /\
  transform_string fade_up_vars c = ""%string /\
  defined (v_x hero_visual_vars) = true /\
  transform_string hero_visual_vars c = scale_text c /\
  (forall style, apply_style fade_up_vars c style !! "transform"%string
                 = style !! "transform"%string).
Proof.
  split; [reflexivity|]. split; [reflexivity|]. split; [reflexivity|].
  split; [reflexivity|].
  intros style. unfold apply_style. cbn [transform_string fade_up_vars v_x v_y
    v_scale v_rotate v_opacity truthy defined orb negb Qeq_bool nonempty].
  simpl. rewrite lookup_insert_ne by discriminate. reflexivity.
Qed.

(** The two writes of a frame, field by field. *)
Lemma apply_style_lookup `{Host} vars c (style : gmap string string) (field : string) :
  apply_style vars c style !! field =
    if decide (field = "transform"%string) then
      if nonempty (transform_string vars c)
      then Some (transform_string vars c) else style !! field
    else if decide (field = "opacity"%string) then
      if defined (v_opacity vars)
      then Some (Number_toString (opacity c)) else style !! field
    else style !! field.
Proof.
  unfold apply_style.
  destruct (nonempty (transform_string vars c)), (defined (v_opacity vars));
    repeat case_decide; subst; simplify_map_eq; try reflexivity; try congruence.
Qed.

(** C10.  A frame leaves every style field other than [opacity] and
    [transform] as it was.  It leaves [opacity] as it was when the descriptor
    has no opacity, and [transform] as it was when no transform piece is
    produced; in the delay phase it leaves the whole style as it was.  After
    the delay phase, a requested opacity and a non-empty transform text are
    written. *)
Theorem tick_writes_only_opacity_and_transform `{Host} tw now
    (style : gmap string string) :
  let style' := fst (tick tw now style) in
  let vars := tw_vars tw in
  let transform := transform_string vars (current tw now) in
  (forall field : string,
     field <> "opacity"%string -> field <> "transform"%string ->
     style' !! field = style !! field) /\
  (v_opacity vars = None ->
     style' !! "opacity"%string = style !! "opacity"%string) /\
  (transform = ""%string ->
     style' !! "transform"%string = style !! "transform"%string) /\
  (now < tw_startTime tw -> style' = style) /\
  (tw_startTime tw <= now -> forall o, v_opacity vars = Some o ->
     style' !! "opacity"%string
       = Some (Number_toString (opacity (current tw now)))) /\
  (tw_startTime tw <= now -> transform <> ""%string ->
     style' !! "transform"%string = Some transform).
Proof.
  intros style' vars transform. subst style'.
  destruct (Qlt_le_dec now (tw_startTime tw)) as [Hdelay | Hrun].
  - rewrite (tick_in_delay tw now style Hdelay). cbn [fst].
    repeat split; try reflexivity; intros; try reflexivity; lra.
  - rewrite (tick_after_delay tw now style Hrun). fold vars.
    split; [|split; [|split; [|split; [|split]]]].
    + intros field Ho Ht. rewrite apply_style_lookup.
      repeat case_decide; congruence.
    + intros Ho. rewrite apply_style_lookup. simpl. rewrite Ho. reflexivity.
    + intros Ht. rewrite apply_style_lookup. simpl. fold transform.
      rewrite Ht. reflexivity.
    + intros Hdelay. lra.
    + intros _ o Ho. rewrite apply_style_lookup. simpl. rewrite Ho. reflexivity.
    + intros _ Ht. rewrite apply_style_lookup. simpl. fold transform.
      destruct transform; [congruence | reflexivity].
Qed.

Lemma tick_writes_only_opacity_and_transform_witness :
  exists tw,
    @_animateSingle sample_host 0 sample_element half_way_vars = Some tw /\
    let style' := fst (@tick sample_host tw 500 sample_style) in
    style' !! "color"%string = Some "red"%string /\
    style' !! "opacity"%string = Some "0.3"%string /\
    style' !! "transform"%string = Some "translate(50px, 0px) "%string.
Proof.
  eexists. split; [reflexivity|].
  lazymatch goal with
  | |- context [tick ?tw _ _] =>
      destruct (@tick_writes_only_opacity_and_transform sample_host tw 500
                  sample_style) as (Hother & Hop & _ & _ & _ & Htr)
  end.
  cbv zeta. split; [|split].
  - rewrite Hother by discriminate. reflexivity.
  - rewrite Hop by reflexivity. reflexivity.
  - rewrite Htr; [vm_compute; reflexivity | compute; discriminate | vm_compute; discriminate].
Defined.

(** ** The scroll trigger *)

Section ScrollTrigger.

Variable options : Options.

Lemma run_app o b1 b2 :
  run options o (b1 ++ b2) = run options (run options o b1) b2.
Proof. unfold run. apply fold_left_app. Qed.

Lemma host_run_app b1 : forall o b2,
  host_run options o (b1 ++ b2) <->
  host_run options o b1 /\ host_run options (run options o b1) b2.
Proof.
  induction b1 as [|b rest IH]; intros o b2; simpl.
  - tauto.
  - rewrite IH. unfold run. simpl. tauto.
Qed.

(** Handling an entry never adds an element to the observed ones. *)
Lemma on_entry_observed o e el :
  el ∈ observed (on_entry options o e) -> el ∈ observed o.
Proof.
  unfold on_entry.
  destruct (isIntersecting e), (onEnter options), (once options), (onLeave options);
    simpl; rewrite ?elem_of_difference; tauto.
Qed.

(** Handling an entry calls back, if at all, for the entry's own target. *)
Lemma on_entry_calls_for o e el :
  entry_target e <> el ->
  calls_for el (calls (on_entry options o e)) = calls_for el (calls o).
Proof.
  intros Hne. apply Nat.eqb_neq in Hne. unfold on_entry, calls_for.
  destruct (isIntersecting e), (onEnter options), (once options), (onLeave options);
    simpl; rewrite ?List.filter_app; simpl; rewrite ?Hne, ?app_nil_r; reflexivity.
Qed.

Lemma notify_unobserved entries : forall o el,
  el ∉ observed o ->
  Forall (fun e => entry_target e <> el) entries ->
  (el ∉ observed (notify options o entries)) /\
  calls_for el (calls (notify options o entries)) = calls_for el (calls o).
Proof.
  induction entries as [|e rest IH]; intros o el Hun Hall; simpl.
  - split; [exact Hun | reflexivity].
  - inversion Hall as [|? ? He Hrest]; subst.
    destruct (IH (on_entry options o e) el) as [H1 H2].
    + intros Hin. apply Hun. eapply on_entry_observed; eassumption.
    + exact Hrest.
    + split; [exact H1|]. rewrite H2. apply on_entry_calls_for. exact He.
Qed.

(** An element that is not observed gets no callback from the host's
    notifications, and stays unobserved. *)
Lemma run_unobserved batches : forall o el,
  el ∉ observed o ->
  host_run options o batches ->
  (el ∉ observed (run options o batches)) /\
  calls_for el (calls (run options o batches)) = calls_for el (calls o).
Proof.
  induction batches as [|b rest IH]; intros o el Hun Hrun.
  - split; [exact Hun | reflexivity].
  - destruct Hrun as [Hb Hrest].
    destruct (notify_unobserved b o el Hun) as [H1 H2].
    { unfold delivered in Hb. eapply Forall_impl; [exact Hb|].
      intros e He Heq. simpl in He. subst el. contradiction. }
    destruct (IH (notify options o b) el H1 Hrest) as [H3 H4].
    split; [exact H3|]. unfold run in *. simpl. rewrite H4. exact H2.
Qed.

(** With [once], an element whose [onEnter] has been called is not
    observed. *)
Hypothesis once_set : once options = true.

Lemma on_entry_entered_unobserved o e :
  entered_unobserved o -> entered_unobserved (on_entry options o e).
Proof.
  intros Inv el. specialize (Inv el). unfold on_entry. rewrite once_set.
  destruct (isIntersecting e), (onEnter options), (onLeave options); simpl;
    rewrite ?elem_of_app, ?list_elem_of_singleton, ?elem_of_difference,
            ?elem_of_singleton;
    intros Hin; try tauto.
  all: destruct Hin as [Hin | Heq]; [tauto|]; try discriminate.
  all: injection Heq as ->; tauto.
Qed.

Lemma notify_entered_unobserved entries : forall o,
  entered_unobserved o -> entered_unobserved (notify options o entries).
Proof.
  induction entries as [|e rest IH]; intros o Inv; simpl; [exact Inv|].
  apply IH, on_entry_entered_unobserved, Inv.
Qed.

Lemma run_entered_unobserved batches : forall o,
  entered_unobserved o -> entered_unobserved (run options o batches).
Proof.
  induction batches as [|b rest IH]; intros o Inv; [exact Inv|].
  apply (IH (notify options o b)), notify_entered_unobserved, Inv.
Qed.

End ScrollTrigger.

(** C3, as the code has it.  With [once] set: as soon as [onEnter] has been
    called for an element, the element is not observed, it stays unobserved
    through every later notification of the host, and those notifications
    call neither [onEnter] nor [onLeave] for it. *)
Theorem once_no_callback_after_enter options elements o0 before after el :
  once options = true ->
  scrollTrigger elements = Some o0 ->
  host_run options o0 (before ++ after) ->
  CallEnter el ∈ calls (run options o0 before) ->
  (el ∉ observed (run options o0 before)) /\
  (el ∉ observed (run options o0 (before ++ after))) /\
  calls_for el (calls (run options o0 (before ++ after)))
    = calls_for el (calls (run options o0 before)).
Proof.
  intros Honce Hst Hrun Hentered.
  assert (Inv0 : entered_unobserved o0).
  { unfold scrollTrigger in Hst. destruct (Nat.eqb (length elements) 0); [discriminate|].
    injection Hst as <-. intros x Hx. simpl in Hx. inversion Hx. }
  apply host_run_app in Hrun as [_ Hafter].
  pose proof (run_entered_unobserved options Honce before o0 Inv0 el Hentered) as Hun.
  split; [exact Hun|].
  rewrite run_app. apply (run_unobserved options after _ el Hun Hafter).
Qed.

Lemma once_no_callback_after_enter_witness :
  let o0 := sample_observer in
  let before := [[out_of_view]; [in_view]] in
  let after := [@nil entry; []] in
  scrollTrigger [7%nat; 8%nat] = Some o0 /\
  calls (run once_options o0 before) = [CallLeave 7; CallEnter 7] /\
  (7%nat ∉ observed (run once_options o0 (before ++ after))) /\
  calls_for 7 (calls (run once_options o0 (before ++ after)))
    = [CallLeave 7; CallEnter 7].
Proof.
  intros o0 before after.
  split; [reflexivity|]. split; [reflexivity|].
  destruct (once_no_callback_after_enter once_options [7%nat; 8%nat] o0
              before after 7%nat eq_refl eq_refl) as (_ & Hun & Hcalls).
  - simpl. unfold delivered. repeat split; repeat constructor; simpl; set_solver.
  - simpl. set_solver.
  - split; [exact Hun|]. rewrite Hcalls. reflexivity.
Defined.

(** C3, the last sentence as stated: with [once] set, [onLeave] is called
    all the same for an element the host reports out of view before it ever
    enters. *)
Lemma once_calls_onLeave_before_enter :
  once once_options = true /\
  scrollTrigger [7%nat; 8%nat] = Some sample_observer /\
  host_run once_options sample_observer [[out_of_view]] /\
  calls (run once_options sample_observer [[out_of_view]]) = [CallLeave 7] /\
  ~ (forall options elements o0 batches el,
       once options = true ->
       scrollTrigger elements = Some o0 ->
       host_run options o0 batches ->
       CallLeave el ∉ calls (run options o0 batches)).
Proof.
  assert (Hrun : host_run once_options sample_observer [[out_of_view]]).
  { simpl. unfold delivered. repeat split; repeat constructor; simpl; set_solver. }
  split; [reflexivity|]. split; [reflexivity|]. split; [exact Hrun|].
  split; [reflexivity|].
  intros Hclaim.
  apply (Hclaim once_options [7%nat; 8%nat] sample_observer [[out_of_view]] 7%nat
           eq_refl eq_refl Hrun).
  simpl. constructor.
Qed.

(** ** The particle simulation *)

Import Particles.

(** The horizontal part of [update]. *)
Lemma update_x w h p :
  Particles.x (update w h p) =
    let x1 := Particles.x p + vx p in
    let x2 := if Qltb x1 0 then w else x1 in
    if Qltb w x2 then 0 else x2.
Proof. reflexivity. Qed.

Lemma update_y w h p :
  Particles.y (update w h p) =
    let y1 := Particles.y p + vy p in
    let y2 := if Qltb y1 0 then h else y1 in
    if Qltb h y2 then 0 else y2.
Proof. reflexivity. Qed.

(** One axis of [update]: step, then the two tests in their order. *)
Lemma wrap_axis (bound pos vel : Q) :
  0 <= bound ->
  let moved := pos + vel in
  let wrapped :=
    let a := if Qltb moved 0 then bound else moved in
    if Qltb bound a then 0 else a in
  0 <= wrapped <= bound /\
  (0 <= moved <= bound -> wrapped = moved) /\
  (bound < moved -> wrapped = 0) /\
  (moved < 0 -> wrapped = bound).
Proof.
  intros Hb moved wrapped. subst wrapped. cbv zeta.
  destruct (Qltb moved 0) eqn:Hneg.
  - apply Qltb_lt in Hneg.
    assert (Hbb : Qltb bound bound = false) by (apply Qltb_ge; lra).
    rewrite Hbb. repeat split; try lra; intros; try reflexivity; lra.
  - apply Qltb_ge in Hneg. destruct (Qltb bound moved) eqn:Hover.
    + apply Qltb_lt in Hover. repeat split; try lra; intros; try reflexivity; lra.
    + apply Qltb_ge in Hover. repeat split; try lra; intros; try reflexivity; lra.
Qed.

(** C4, as the code has it.  On a canvas with non-negative sides one update
    step adds the velocity to the position and leaves the particle within
    the canvas: a coordinate that stays within its bounds is kept, one that
    passes the far edge becomes 0, one that falls below 0 becomes the far
    edge; velocity and size are unchanged.  A particle at [x = width - 0.1]
    is at 0 after the step when [vx > 0.1]; one at [x = 0.1] is at [width]
    when [vx < -0.1]. *)
Theorem update_wraps_at_the_edges w h p :
  0 <= w -> 0 <= h ->
  let p' := update w h p in
  let mx := Particles.x p + vx p in
  let my := Particles.y p + vy p in
  within w h p' /\
  vx p' = vx p /\ vy p' = vy p /\ size p' = size p /\
  (0 <= mx <= w -> Particles.x p' = mx) /\
  (w < mx -> Particles.x p' = 0) /\
  (mx < 0 -> Particles.x p' = w) /\
  (0 <= my <= h -> Particles.y p' = my) /\
  (h < my -> Particles.y p' = 0) /\
  (my < 0 -> Particles.y p' = h) /\
  (Particles.x p == w - 0.1 -> 0.1 < vx p -> Particles.x p' = 0) /\
  (Particles.x p == 0.1 -> vx p < -0.1 -> Particles.x p' = w).
Proof.
  intros Hw Hh p' mx my.
  destruct (wrap_axis w (Particles.x p) (vx p) Hw) as (Hx & Hx1 & Hx2 & Hx3).
  destruct (wrap_axis h (Particles.y p) (vy p) Hh) as (Hy & Hy1 & Hy2 & Hy3).
  cbv zeta in *. fold mx in Hx, Hx1, Hx2, Hx3. fold my in Hy, Hy1, Hy2, Hy3.
  subst p'. unfold within. rewrite update_x, update_y. cbv zeta. fold mx my.
  split; [split; assumption|].
  do 3 (split; [reflexivity|]).
  do 6 (split; [assumption|]).
  split; intros Hpos Hvel.
  - apply Hx2. unfold mx. lra.
  - apply Hx3. unfold mx. lra.
Qed.

Lemma update_wraps_at_the_edges_witness :
  within 100 100 (update 100 100 fast_particle) /\
  Particles.x (update 100 100 fast_particle) = 0.
Proof.
  destruct (update_wraps_at_the_edges 100 100 fast_particle)
    as (Hin & _ & _ & _ & _ & _ & _ & _ & _ & _ & Hwrap & _).
  - compute; discriminate.
  - compute; discriminate.
  - split; [exact Hin|]. apply Hwrap; [reflexivity | reflexivity].
Defined.

(** C4, the example as stated: at [x = width - 0.1] a velocity that is
    positive but no more than 0.1 does not take the particle past the edge;
    it moves on to 99.95 and is nowhere near 0. *)
Lemma slow_particle_does_not_wrap :
  Particles.x slow_particle == 100 - 0.1 /\
  0 < vx slow_particle /\
  Particles.x (update 100 100 slow_particle) == 99.95 /\
  ~ Particles.x (update 100 100 slow_particle) <= 1 /\
  ~ (forall w h p, 0 <= w -> 0 <= h ->
       Particles.x p == w - 0.1 -> 0 < vx p ->
       Particles.x (update w h p) <= 1).
Proof.
  split; [reflexivity|]. split; [reflexivity|]. split; [reflexivity|].
  split; [compute; congruence|].
  intros Hclaim.
  specialize (Hclaim 100 100 slow_particle).
  revert Hclaim. compute. intros Hclaim.
  apply Hclaim; congruence.
Qed.

(** The constructor reads five values and leaves the source five further. *)
Lemma new_Particle_spec w h r :
  let (p, r') := new_Particle w h r in
  drawn_at w h (draws r) (next r) p /\
  draws r' = draws r /\ next r' = (next r + 5)%nat.
Proof.
  unfold new_Particle, bind, Math_random, ret, drawn_at. simpl.
  rewrite !Nat.add_succ_r, !Nat.add_0_r. repeat split; reflexivity.
Qed.

(** The loop of [init] keeps what is in the list and appends [n] particles,
    each made from the next five values of the source. *)
Lemma push_particles_spec w h n : forall acc r,
  let (ps, r') := push_particles n w h acc r in
  draws r' = draws r /\
  next r' = (next r + 5 * n)%nat /\
  length ps = (length acc + n)%nat /\
  (forall i, (i < length acc)%nat -> ps !! i = acc !! i) /\
  (forall i p, (length acc <= i)%nat -> ps !! i = Some p ->
     drawn_at w h (draws r) (next r + 5 * (i - length acc))%nat p).
Proof.
  induction n as [|n IH]; intros acc r.
  - simpl. unfold ret.
    split; [reflexivity|]. split; [lia|]. split; [lia|]. split.
    + intros i _. reflexivity.
    + intros i p Hi Hp. apply lookup_lt_Some in Hp. lia.
  - cbn [push_particles]. unfold bind at 1.
    pose proof (new_Particle_spec w h r) as Hnew.
    destruct (new_Particle w h r) as [p0 r1]. destruct Hnew as (Hp0 & Hd1 & Hn1).
    specialize (IH (acc ++ [p0]) r1).
    destruct (push_particles n w h (acc ++ [p0]) r1) as [ps r'].
    destruct IH as (Hd & Hn & Hlen & Hkeep & Hnewer).
    rewrite length_app in Hlen, Hkeep, Hnewer. simpl in Hlen, Hkeep, Hnewer.
    split; [congruence|]. split; [lia|]. split; [lia|]. split.
    + intros i Hi. rewrite Hkeep by lia. apply lookup_app_l. exact Hi.
    + intros i p Hi Hp.
      destruct (decide (i = length acc)) as [-> | Hne].
      * rewrite Hkeep in Hp by lia.
        rewrite lookup_app_r, Nat.sub_diag in Hp by lia.
        injection Hp as <-. rewrite Nat.sub_diag, Nat.mul_0_r, Nat.add_0_r.
        exact Hp0.
      * specialize (Hnewer i p ltac:(lia) Hp). rewrite Hd1, Hn1 in Hnewer.
        replace (next r + 5 * (i - length acc))%nat
          with (next r + 5 + 5 * (i - (length acc + 1)))%nat by lia.
        exact Hnewer.
Qed.

(** The ranges of a particle made from values in the range of
    [Math.random]. *)
Lemma drawn_at_ranges w h d k p :
  in_unit_range d -> 0 <= w -> 0 <= h ->
  drawn_at w h d k p ->
  0 <= Particles.x p <= w /\ 0 <= Particles.y p <= h /\
  (0 < w -> Particles.x p < w) /\ (0 < h -> Particles.y p < h) /\
  -0.25 <= vx p <= 0.25 /\ -0.25 <= vy p <= 0.25 /\
  0 <= size p /\ size p < 2.
Proof.
  intros Hd Hw Hh (Hx & Hy & Hvx & Hvy & Hs).
  rewrite Hx, Hy, Hvx, Hvy, Hs.
  pose proof (Hd k) as [? ?]. pose proof (Hd (k + 1)%nat) as [? ?].
  pose proof (Hd (k + 2)%nat) as [? ?]. pose proof (Hd (k + 3)%nat) as [? ?].
  pose proof (Hd (k + 4)%nat) as [? ?].
  repeat split; try lra; try nra.
  all: intros; nra.
Qed.

Lemma sample_random_in_unit_range : in_unit_range (draws sample_random).
Proof.
  intros n. simpl. destruct (Nat.even n); split; compute; congruence.
Qed.

(** A resize event changes the canvas size and nothing else. *)
Lemma resize_event_effect s w h :
  width (handle s (ResizeEvent w h)) = w /\
  height (handle s (ResizeEvent w h)) = h /\
  particles (handle s (ResizeEvent w h)) = particles s /\
  random (handle s (ResizeEvent w h)) = random s.
Proof. repeat split. Qed.

(** The startup sequence, field by field. *)
Lemma startup_fields w h r :
  width (startup w h r) = w /\
  height (startup w h r) = h /\
  particles (startup w h r) = fst (push_particles 50 w h [] r) /\
  random (startup w h r) = snd (push_particles 50 w h [] r).
Proof. repeat split. Qed.

(** The pool [init] makes on a canvas of [w] by [h]. *)
Lemma pool_spec w h r :
  let pool := fst (push_particles 50 w h [] r) in
  length pool = 50%nat /\
  forall i p, pool !! i = Some p ->
    drawn_at w h (draws r) (next r + 5 * i)%nat p.
Proof.
  pose proof (push_particles_spec w h 50 [] r) as Hpush.
  destruct (push_particles 50 w h [] r) as [ps r'].
  destruct Hpush as (_ & _ & Hlen & _ & Hnew).
  cbn [fst]. split; [exact Hlen|].
  intros i p Hp. specialize (Hnew i p (Nat.le_0_l i) Hp).
  change (length (@nil Particle)) with 0%nat in Hnew.
  rewrite Nat.sub_0_r in Hnew. exact Hnew.
Qed.

Lemma handle_keeps_pool_shape s ev :
  length (particles (handle s ev)) = length (particles s) /\
  map vx (particles (handle s ev)) = map vx (particles s) /\
  map vy (particles (handle s ev)) = map vy (particles s) /\
  map size (particles (handle s ev)) = map size (particles s) /\
  random (handle s ev) = random s.
Proof.
  destruct ev as [w h|]; cbn [handle resize animate particles random].
  - repeat split.
  - rewrite length_map, !map_map. repeat split.
Qed.

(** From the first frame on: whatever events follow, the pool has the
    length, the velocities and the radii it was created with, and
    [Math.random] has not been read again. *)
Lemma running_keeps_pool_shape s evs :
  length (particles (run_events (animate s) evs)) = length (particles s) /\
  map vx (particles (run_events (animate s) evs)) = map vx (particles s) /\
  map vy (particles (run_events (animate s) evs)) = map vy (particles s) /\
  map size (particles (run_events (animate s) evs)) = map size (particles s) /\
  random (run_events (animate s) evs) = random s.
Proof.
  assert (Hrun : forall evs s0,
    length (particles (run_events s0 evs)) = length (particles s0) /\
    map vx (particles (run_events s0 evs)) = map vx (particles s0) /\
    map vy (particles (run_events s0 evs)) = map vy (particles s0) /\
    map size (particles (run_events s0 evs)) = map size (particles s0) /\
    random (run_events s0 evs) = random s0).
  { clear. induction evs as [|ev rest IH]; intros s0; [repeat split|].
    unfold run_events in *. cbn [fold_left].
    destruct (IH (handle s0 ev)) as (H1 & H2 & H3 & H4 & H5).
    destruct (handle_keeps_pool_shape s0 ev) as (G1 & G2 & G3 & G4 & G5).
    repeat split; congruence. }
  destruct (Hrun evs (animate s)) as (H1 & H2 & H3 & H4 & H5).
  destruct (handle_keeps_pool_shape s Frame) as (G1 & G2 & G3 & G4 & G5).
  cbn [handle] in G1, G2, G3, G4, G5.
  repeat split; congruence.
Qed.

(** C1, as the code has it.  The startup sequence takes the canvas size from
    the viewport and fills the pool with exactly 50 particles; particle [i]
    is made from five fresh values of [Math.random], which puts its position
    within the canvas, each velocity component between -0.25 and 0.25 and its
    radius in [0, 2).  Every resize event afterwards, in whatever state the
    first frame and the events since have left the simulation, sets the
    canvas size to the new viewport size and does nothing else: the pool is
    the same list of particles, and [Math.random] is not read.  In every
    such state the pool still has its 50 particles, with the velocities and
    radii they were created with. *)
Theorem startup_fills_pool_resize_keeps_it w h r evs w' h' :
  in_unit_range (draws r) -> 0 <= w -> 0 <= h ->
  width (startup w h r) = w /\ height (startup w h r) = h /\
  length (particles (startup w h r)) = 50%nat /\
  (forall i p, particles (startup w h r) !! i = Some p ->
     drawn_at w h (draws r) (next r + 5 * i)%nat p /\
     within w h p /\
     (0 < w -> Particles.x p < w) /\ (0 < h -> Particles.y p < h) /\
     -0.25 <= vx p <= 0.25 /\ -0.25 <= vy p <= 0.25 /\
     0 <= size p /\ size p < 2) /\
  length (particles (run_events (initParticles w h r) evs)) = 50%nat /\
  map vx (particles (run_events (initParticles w h r) evs))
    = map vx (particles (startup w h r)) /\
  map vy (particles (run_events (initParticles w h r) evs))
    = map vy (particles (startup w h r)) /\
  map size (particles (run_events (initParticles w h r) evs))
    = map size (particles (startup w h r)) /\
  random (run_events (initParticles w h r) evs) = random (startup w h r) /\
  width (handle (run_events (initParticles w h r) evs) (ResizeEvent w' h')) = w' /\
  height (handle (run_events (initParticles w h r) evs) (ResizeEvent w' h')) = h' /\
  particles (handle (run_events (initParticles w h r) evs) (ResizeEvent w' h'))
    = particles (run_events (initParticles w h r) evs) /\
  random (handle (run_events (initParticles w h r) evs) (ResizeEvent w' h'))
    = random (run_events (initParticles w h r) evs).
Proof.
  intros Hr Hw Hh.
  destruct (startup_fields w h r) as (Hsw & Hsh & Hps & _).
  destruct (pool_spec w h r) as (Hlen & Hnew).
  rewrite <- Hps in Hlen, Hnew. clear Hps.
  unfold initParticles.
  pose proof (running_keeps_pool_shape (startup w h r) evs)
    as (Hrl & Hrvx & Hrvy & Hrs & Hrr).
  generalize dependent (startup w h r).
  intros sim Hsw Hsh Hlen Hnew Hrl Hrvx Hrvy Hrs Hrr.
  split; [exact Hsw|]. split; [exact Hsh|]. split; [exact Hlen|].
  split.
  { intros i p Hp. pose proof (Hnew i p Hp) as Hdrawn.
    pose proof (drawn_at_ranges w h (draws r) (next r + 5 * i)%nat p
                  Hr Hw Hh Hdrawn)
      as (Hx & Hy & Hxlt & Hylt & Hvx & Hvy & Hs0 & Hs2).
    split; [exact Hdrawn|]. split; [split; assumption|].
    split; [exact Hxlt|]. split; [exact Hylt|]. split; [exact Hvx|].
    split; [exact Hvy|]. split; [exact Hs0 | exact Hs2]. }
  split; [rewrite Hrl; exact Hlen|].
  split; [exact Hrvx|]. split; [exact Hrvy|]. split; [exact Hrs|].
  split; [exact Hrr|].
  apply resize_event_effect.
Qed.

Lemma startup_fills_pool_resize_keeps_it_witness :
  length (particles (startup 800 600 sample_random)) = 50%nat /\
  (forall i p, particles (startup 800 600 sample_random) !! i = Some p ->
               within 800 600 p /\ -0.25 <= vx p <= 0.25) /\
  length (particles (run_events (initParticles 800 600 sample_random)
                       [Frame; ResizeEvent 640 480; Frame])) = 50%nat /\
  particles (handle (run_events (initParticles 800 600 sample_random)
                       [Frame; ResizeEvent 640 480; Frame])
               (ResizeEvent 400 300))
    = particles (run_events (initParticles 800 600 sample_random)
                   [Frame; ResizeEvent 640 480; Frame]).
Proof.
  destruct (startup_fills_pool_resize_keeps_it 800 600 sample_random
              [Frame; ResizeEvent 640 480; Frame] 400 300
              sample_random_in_unit_range)
    as (_ & _ & Hlen & Hpool & Hlater & _ & _ & _ & _ & _ & _ & Hsame & _).
  - compute; congruence.
  - compute; congruence.
  - split; [exact Hlen|]. split; [|split; [exact Hlater | exact Hsame]].
    intros i p Hp. destruct (Hpool i p Hp) as (_ & Hin & _ & _ & Hvx & _).
    split; assumption.
Defined.

(** C1, as stated: a resize event does not make the pool anew.  After a
    start on a canvas of 1000 by 1000, whose first frame has run, and a
    resize to 100 by 100 the pool is the list it was, no value of
    [Math.random] has been read, and its first particle, at
    (249.875, 750.125), lies outside the new canvas. *)
Lemma resize_event_keeps_the_pool :
  width (handle (initParticles 1000 1000 sample_random) (ResizeEvent 100 100)) = 100 /\
  particles (handle (initParticles 1000 1000 sample_random) (ResizeEvent 100 100))
    = particles (initParticles 1000 1000 sample_random) /\
  random (handle (initParticles 1000 1000 sample_random) (ResizeEvent 100 100))
    = random (initParticles 1000 1000 sample_random) /\
  (exists p,
     particles (handle (initParticles 1000 1000 sample_random) (ResizeEvent 100 100))
       !! 0%nat = Some p /\
     Particles.x p == 249.875 /\ Particles.y p == 750.125) /\
  ~ Forall (within 100 100)
      (particles (handle (initParticles 1000 1000 sample_random)
                    (ResizeEvent 100 100))).
Proof.
  destruct (resize_event_effect (initParticles 1000 1000 sample_random) 100 100)
    as (Hw & _ & Hsame & Hrandom).
  split; [exact Hw|]. split; [exact Hsame|]. split; [exact Hrandom|].
  assert (Hfirst : exists p,
     particles (handle (initParticles 1000 1000 sample_random) (ResizeEvent 100 100))
       !! 0%nat = Some p /\
     Particles.x p == 249.875 /\ Particles.y p == 750.125).
  { eexists. split; [vm_compute; reflexivity|]. split; reflexivity. }
  split; [exact Hfirst|].
  destruct Hfirst as (p & Hp & Hx & _).
  intros Hall.
  destruct (proj1 (Forall_lookup _ _) Hall 0%nat p Hp) as [[_ Hright] _].
  rewrite Hx in Hright. revert Hright. compute. congruence.
Qed.

(* ===================================================================== *)
(** * Further properties of the code *)
(* ===================================================================== *)

(** ** The easing library, beyond the claims *)

(** [Math.pow] does not tell apart two ways of writing the same number. *)
Lemma Math_pow_2_exp `{Host} (e : Q) : e == 0 -> Math_pow 2 e == 1.
Proof.
  intros He. unfold Math_pow.
  rewrite (Qred_complete e 0 He). reflexivity.
Qed.

Lemma easing_fn_at_0 `{Host} (n : easing_name) (t : Q) :
  t == 0 -> n <> EaseOutBack -> easing_fn n t == 0.
Proof.
  intros Ht Hn; destruct n; cbn [easing_fn].
  - unfold linear. exact Ht.
  - unfold easeOutQuad. rewrite Ht. reflexivity.
  - contradiction.
  - unfold easeOutExpo.
    destruct (Qeq_bool t 1) eqn:E.
    + apply Qeq_bool_iff in E. rewrite Ht in E. discriminate E.
    + rewrite Math_pow_2_exp by (rewrite Ht; reflexivity). reflexivity.
Qed.

Lemma easing_fn_at_1 `{Host} (n : easing_name) (t : Q) :
  t == 1 -> easing_fn n t == 1.
Proof.
  intros Ht; destruct n; cbn [easing_fn].
  - unfold linear. exact Ht.
  - unfold easeOutQuad. rewrite Ht. reflexivity.
  - rewrite easeOutBack_cubic, Ht. reflexivity.
  - unfold easeOutExpo. rewrite (Qeq_eq_bool t 1 Ht). reflexivity.
Qed.

(** X1.  Each of the four easing functions returns 1 at progress 1, and
    [linear], [easeOutQuad] and [easeOutExpo] return 0 at progress 0. *)
Theorem easings_fix_endpoints `{Host} (n : easing_name) (t : Q) :
  (t == 1 -> easing_fn n t == 1) /\
  (t == 0 -> n <> EaseOutBack -> easing_fn n t == 0).
Proof.
  split; [apply easing_fn_at_1 | apply easing_fn_at_0].
Qed.

Lemma easings_fix_endpoints_witness :
  @easing_fn sample_host EaseOutBack 1 == 1 /\
  @easing_fn sample_host EaseOutExpo 0 == 0.
Proof.
  split.
  - apply (@easings_fix_endpoints sample_host EaseOutBack 1). reflexivity.
  - apply (@easings_fix_endpoints sample_host EaseOutExpo 0);
      [reflexivity | discriminate].
Defined.

(** X2.  On [0, 1] [easeOutQuad] stays within [0, 1], is never behind the
    linear progress, and does not decrease. *)
Theorem easeOutQuad_monotone_in_range (s t : Q) :
  0 <= s -> s <= t -> t <= 1 ->
  0 <= easeOutQuad s /\ easeOutQuad s <= easeOutQuad t /\
  easeOutQuad t <= 1 /\ t <= easeOutQuad t.
Proof.
  intros H0 Hst H1. unfold easeOutQuad. repeat split; nra.
Qed.

Lemma easeOutQuad_monotone_in_range_witness :
  0 <= easeOutQuad 0.25 /\ easeOutQuad 0.25 <= easeOutQuad 0.5 /\
  easeOutQuad 0.5 <= 1 /\ 0.5 <= easeOutQuad 0.5.
Proof.
  apply (easeOutQuad_monotone_in_range 0.25 0.5); compute; congruence.
Defined.

(** The overshoot of [easeOutBack], as a product: with [u = t - 1] the
    distance of the value from its maximum [1 + 4 c1^3 / (27 c3^2)] is
    [c3 (u + 2 c1 / (3 c3))^2 (c1 / (3 c3) - u)]. *)
Lemma easeOutBack_below_peak `{Host} (t : Q) :
  let c1 := 1.70158 in
  let c3 := c1 + 1 in
  1 + 4 * (c1 * c1 * c1) / (27 * (c3 * c3)) - easeOutBack t ==
  c3 * ((t - 1 + 2 * c1 / (3 * c3)) * (t - 1 + 2 * c1 / (3 * c3)))
     * (c1 / (3 * c3) - (t - 1)).
Proof.
  cbv zeta. rewrite easeOutBack_cubic. field.
Qed.

(** X3.  On [0, 1] [easeOutBack] is never negative and never more than
    1.1001: the overshoot stays within about a tenth of the distance
    travelled. *)
Theorem easeOutBack_overshoot_bounded `{Host} (t : Q) :
  0 <= t -> t <= 1 ->
  0 <= easeOutBack t /\ easeOutBack t <= 1.1001.
Proof.
  intros H0 H1. split.
  - rewrite easeOutBack_cubic.
    assert (Hsq : 0 <= (t - 1) * (t - 1) <= 1) by nra.
    destruct (Qlt_le_dec (t - 1) (- (1.70158 / 2.70158))) as [Hlow | Hhigh].
    + assert (Hf : -1 <= (1.70158 + 1) * (t - 1) + 1.70158 <= 0).
      { split; [nra|]. assert (1.70158 / 2.70158 == 170158 # 270158) by reflexivity. nra. }
      nra.
    + assert (Hf : 0 <= (1.70158 + 1) * (t - 1) + 1.70158).
      { assert (1.70158 / 2.70158 == 170158 # 270158) by reflexivity. nra. }
      nra.
  - pose proof (easeOutBack_below_peak t) as Hpeak. cbv zeta in Hpeak.
    set (a := t - 1 + 2 * 1.70158 / (3 * (1.70158 + 1))) in Hpeak.
    assert (Hsq : 0 <= a * a) by nra.
    assert (Hr : 0 <= 1.70158 / (3 * (1.70158 + 1)) - (t - 1)).
    { assert (0 <= 1.70158 / (3 * (1.70158 + 1))) by (compute; congruence). lra. }
    assert (Hprod : 0 <= (1.70158 + 1) * (a * a)
                         * (1.70158 / (3 * (1.70158 + 1)) - (t - 1))).
    { apply Qmult_le_0_compat; [|exact Hr].
      apply Qmult_le_0_compat; [compute; congruence | exact Hsq]. }
    rewrite <- Hpeak in Hprod.
    assert (Hmax : 1 + 4 * (1.70158 * 1.70158 * 1.70158)
                       / (27 * ((1.70158 + 1) * (1.70158 + 1))) <= 1.1001)
      by (compute; congruence).
    lra.
Qed.

Lemma easeOutBack_overshoot_bounded_witness :
  0 <= @easeOutBack sample_host 0.6 /\ @easeOutBack sample_host 0.6 <= 1.1001.
Proof.
  apply (@easeOutBack_overshoot_bounded sample_host 0.6); compute; congruence.
Defined.

(** ** The tween engine, beyond the claims *)

(** With a positive duration, progress is short of 1 exactly before the
    end time, and never negative once the delay is over. *)
Lemma progress_lt_1_iff tw now :
  0 < tw_duration tw ->
  (progress tw now < 1 <-> now < tw_startTime tw + tw_duration tw).
Proof.
  intros Hd. unfold progress, elapsed, Math_min.
  set (e := now - tw_startTime tw). set (d := tw_duration tw) in *.
  assert (Hmul : e / d * d == e) by (field; lra).
  rewrite Q.min_lt_iff. split.
  - intros [Hlt | Hlt]; [|lra]. assert (e < d) by nra. unfold e in *. lra.
  - intros Hlt. left. assert (He : e < d) by (unfold e; lra).
    destruct (Qlt_le_dec (e / d) 1) as [Hok | Hbad]; [exact Hok | nra].
Qed.

Lemma progress_nonneg tw now :
  0 < tw_duration tw -> tw_startTime tw <= now -> 0 <= progress tw now.
Proof.
  intros Hd Hnow. unfold progress, elapsed, Math_min.
  apply Q.min_glb; [|lra].
  apply Qle_shift_div_l; [exact Hd | lra].
Qed.

Lemma progress_at_end tw now :
  0 < tw_duration tw -> tw_startTime tw + tw_duration tw <= now ->
  progress tw now == 1.
Proof.
  intros Hd Hnow. apply Qle_antisym; [apply progress_le_1|].
  destruct (Qlt_le_dec (progress tw now) 1) as [Hlt | Hge]; [|exact Hge].
  apply progress_lt_1_iff in Hlt; [lra | exact Hd].
Qed.

(** What one frame answers, for a tween with a positive duration. *)
Lemma tick_outcome `{Host} tw now style :
  0 < tw_duration tw ->
  snd (tick tw now style) =
    if Qltb now (tw_startTime tw + tw_duration tw) then Reschedule
    else Complete (v_onComplete (tw_vars tw)).
Proof.
  intros Hd. unfold tick.
  destruct (Qltb now (tw_startTime tw)) eqn:Hdelay.
  - apply Qltb_lt in Hdelay.
    assert (Hlt : Qltb now (tw_startTime tw + tw_duration tw) = true)
      by (apply Qltb_lt; lra).
    rewrite Hlt. reflexivity.
  - destruct (Qltb (progress tw now) 1) eqn:Hp;
      destruct (Qltb now (tw_startTime tw + tw_duration tw)) eqn:He;
      try reflexivity.
    + apply Qltb_lt in Hp. apply Qltb_ge in He.
      apply progress_lt_1_iff in Hp; [lra | exact Hd].
    + apply Qltb_ge in Hp. apply Qltb_lt in He.
      apply (progress_lt_1_iff tw now Hd) in He. lra.
Qed.

(** X4.  For a tween with a positive duration the chain of frames stops at
    the first frame at or after start time plus duration: that frame writes
    its state and calls [onComplete] (if given), and whatever frames the
    host would deliver afterwards are never run.  Until such a frame comes
    the tween stays scheduled and [onComplete] is not called. *)
Theorem run_frames_completes_once `{Host} tw before t after style :
  0 < tw_duration tw ->
  Forall (fun now => now < tw_startTime tw + tw_duration tw) before ->
  tw_startTime tw + tw_duration tw <= t ->
  snd (run_frames tw before style) = Reschedule /\
  run_frames tw (before ++ t :: after) style =
    (apply_style (tw_vars tw) (current tw t) (fst (run_frames tw before style)),
     Complete (v_onComplete (tw_vars tw))).
Proof.
  intros Hd Hbefore Ht. revert style.
  induction Hbefore as [|now rest Hnow Hrest IH]; intros style.
  - split; [reflexivity|]. cbn [app run_frames fst].
    pose proof (tick_outcome tw t style Hd) as Hout.
    assert (Hge : Qltb t (tw_startTime tw + tw_duration tw) = false)
      by (apply Qltb_ge; exact Ht).
    rewrite Hge in Hout.
    pose proof (tick_after_delay tw t style ltac:(lra)) as Hst.
    destruct (tick tw t style) as [style' out]. cbn [fst snd] in *.
    subst. reflexivity.
  - cbn [app run_frames].
    pose proof (tick_outcome tw now style Hd) as Hout.
    assert (Hlt : Qltb now (tw_startTime tw + tw_duration tw) = true)
      by (apply Qltb_lt; exact Hnow).
    rewrite Hlt in Hout.
    destruct (tick tw now style) as [style' out]. cbn [snd] in Hout. subst out.
    apply IH.
Qed.

Lemma run_frames_completes_once_witness :
  exists tw,
    @_animateSingle sample_host 0 sample_element half_way_vars = Some tw /\
    @run_frames sample_host tw [0; 250; 500; 1000; 1016; 1033] ∅
      = (<["transform"%string := "translate(100px, 0px) "%string]> ∅,
         Complete None).
Proof.
  eexists. split; [reflexivity|].
  lazymatch goal with
  | |- run_frames ?tw _ _ = _ =>
      destruct (@run_frames_completes_once sample_host tw [0; 250; 500] 1000
                  [1016; 1033] ∅) as [_ Hrun]
  end.
  - compute; congruence.
  - repeat constructor; compute; congruence.
  - compute; congruence.
  - cbn [app] in Hrun. rewrite Hrun. vm_compute. reflexivity.
Defined.

(** X5.  A descriptor with a negative duration makes a tween that never
    completes: every frame asks for another one, and [onComplete] is never
    called, however long the frames go on. *)
Theorem negative_duration_never_completes `{Host} perf_now el vars tw d times style :
  v_duration vars = Some d -> d < 0 ->
  _animateSingle perf_now el vars = Some tw ->
  snd (run_frames tw times style) = Reschedule.
Proof.
  intros Hdur Hneg Htw.
  apply animateSingle_fields in Htw as (_ & _ & Hd & _).
  rewrite Hdur, or_default_truthy in Hd by lra.
  assert (Hd' : tw_duration tw < 0) by (rewrite Hd; lra). clear Hd.
  revert style. induction times as [|now rest IH]; intros style; [reflexivity|].
  cbn [run_frames]. unfold tick.
  destruct (Qltb now (tw_startTime tw)) eqn:Hdelay; [apply IH|].
  apply Qltb_ge in Hdelay.
  assert (Hp : Qltb (progress tw now) 1 = true).
  { apply Qltb_lt. unfold progress, elapsed, Math_min.
    apply Q.min_lt_iff. left.
    set (e := now - tw_startTime tw). set (dd := tw_duration tw) in *.
    assert (Hmul : e / dd * dd == e) by (field; lra).
    assert (He : 0 <= e) by (unfold e; lra).
    destruct (Qlt_le_dec (e / dd) 1) as [Hok | Hbad]; [exact Hok | nra]. }
  rewrite Hp. apply IH.
Qed.

Lemma negative_duration_never_completes_witness :
  exists tw,
    @_animateSingle sample_host 0 sample_element backwards_vars = Some tw /\
    snd (@run_frames sample_host tw [0; 1000; 2000; 1000000] ∅) = Reschedule.
Proof.
  eexists. split; [reflexivity|].
  apply (@negative_duration_never_completes sample_host 0 sample_element
           backwards_vars _ (-1)); [reflexivity | reflexivity | reflexivity].
Defined.

(** X6.  Once the elapsed time has reached the duration of a tween with a
    positive duration, progress and the eased progress are exactly 1,
    whichever of the four easings is in use.  The offsets [x] and [y] and the
    rotation, which start from 0, then hold exactly the values of the
    descriptor; opacity and scale are start + (end - start) * 1. *)
Theorem tween_end_frame_has_full_progress `{Host} perf_now el vars tw now :
  _animateSingle perf_now el vars = Some tw ->
  0 < tw_duration tw ->
  tw_duration tw <= elapsed tw now ->
  let c := current tw now in
  progress tw now == 1 /\
  easeVal tw now == 1 /\
  AnimEngine.x c == if_defined (v_x vars) 0 /\
  AnimEngine.y c == if_defined (v_y vars) 0 /\
  rotate c == if_defined (v_rotate vars) 0 /\
  opacity c == computed_opacity el
               + (if_defined (v_opacity vars) (computed_opacity el)
                  - computed_opacity el) * 1 /\
  scale c == 1 + (if_defined (v_scale vars) 1 - 1) * 1.
Proof.
  intros Htw Hd Hnow c.
  assert (Hend : tw_startTime tw + tw_duration tw <= now)
    by (unfold elapsed in Hnow; lra).
  pose proof (progress_at_end tw now Hd Hend) as Hp.
  apply animateSingle_fields in Htw
    as (_ & _ & _ & _ & _ & (n & _ & Hfn) & Hs & He).
  assert (Hease : easeVal tw now == 1).
  { unfold easeVal. rewrite Hfn. apply easing_fn_at_1. exact Hp. }
  split; [exact Hp|]. split; [exact Hease|].
  subst c. unfold current. rewrite Hs, He.
  cbn [opacity AnimEngine.x AnimEngine.y scale rotate].
  rewrite Hease. repeat split; ring.
Qed.

Lemma tween_end_frame_has_full_progress_witness :
  exists tw,
    @_animateSingle sample_host 0 sample_element half_way_vars = Some tw /\
    easeVal tw 1000 == 1 /\ AnimEngine.x (current tw 1016) == 100.
Proof.
  eexists. split; [reflexivity|].
  lazymatch goal with
  | |- easeVal ?tw _ == _ /\ _ =>
      destruct (@tween_end_frame_has_full_progress sample_host 0 sample_element
                  half_way_vars tw 1000 eq_refl) as (_ & He & _);
        [compute; congruence | compute; congruence |];
      destruct (@tween_end_frame_has_full_progress sample_host 0 sample_element
                  half_way_vars tw 1016 eq_refl) as (_ & _ & Hx & _);
        [compute; congruence | compute; congruence |]
  end.
  split; [exact He | exact Hx].
Defined.

(** X7.  A property the descriptor leaves out does not move: on every
    frame the opacity of the interpolated state is the opacity the element
    started with, the offsets and the rotation are 0 and the scale is 1,
    whatever the easing returns. *)
Theorem omitted_properties_do_not_animate `{Host} perf_now el vars tw now :
  _animateSingle perf_now el vars = Some tw ->
  let c := current tw now in
  (v_opacity vars = None -> opacity c == computed_opacity el) /\
  (v_x vars = None -> AnimEngine.x c == 0) /\
  (v_y vars = None -> AnimEngine.y c == 0) /\
  (v_scale vars = None -> scale c == 1) /\
  (v_rotate vars = None -> rotate c == 0).
Proof.
  intros Htw c.
  apply animateSingle_fields in Htw as (_ & _ & _ & _ & _ & _ & Hs & He).
  subst c. unfold current. rewrite Hs, He. cbn [opacity AnimEngine.x AnimEngine.y scale rotate].
  repeat split; intros ->; cbn [if_defined]; ring.
Qed.

Lemma omitted_properties_do_not_animate_witness :
  exists tw,
    @_animateSingle sample_host 0 sample_element half_way_vars = Some tw /\
    opacity (current tw 300) == 1 /\ scale (current tw 300) == 1.
Proof.
  eexists. split; [reflexivity|].
  lazymatch goal with
  | |- opacity (current ?tw _) == _ /\ _ =>
      destruct (@omitted_properties_do_not_animate sample_host 0 sample_element
                  half_way_vars tw 300 eq_refl) as (Ho & _ & _ & Hs & _)
  end.
  split; [apply Ho | apply Hs]; reflexivity.
Defined.

(** A value interpolated with an eased progress in [0, 1] lies between the
    two ends. *)
Lemma lerp_between (a b e : Q) :
  0 <= e -> e <= 1 -> between a b (a + (b - a) * e).
Proof.
  intros H0 H1. unfold between.
  destruct (Q.min_spec a b) as [[Hlt Hmin] | [Hle Hmin]];
    destruct (Q.max_spec a b) as [[Hlt' Hmax] | [Hle' Hmax]];
    rewrite Hmin, Hmax; split; nra.
Qed.

(** X8.  With [linear] or [easeOutQuad] (the default, and the fallback for
    an unknown name) a tween with a positive duration does not overshoot: on
    every frame after the delay the progress and the eased progress lie in
    [0, 1], and the offsets [x] and [y] and the rotation, which start from
    0, lie between 0 and the value of the descriptor. *)
Theorem linear_and_quad_tweens_stay_between `{Host} perf_now el vars tw now :
  _animateSingle perf_now el vars = Some tw ->
  select_easing (v_ease vars) = Easing Linear \/
  select_easing (v_ease vars) = Easing EaseOutQuad ->
  0 < tw_duration tw ->
  tw_startTime tw <= now ->
  let c := current tw now in
  0 <= progress tw now /\ progress tw now <= 1 /\
  0 <= easeVal tw now /\ easeVal tw now <= 1 /\
  between 0 (if_defined (v_x vars) 0) (AnimEngine.x c) /\
  between 0 (if_defined (v_y vars) 0) (AnimEngine.y c) /\
  between 0 (if_defined (v_rotate vars) 0) (rotate c).
Proof.
  intros Htw Hsel Hd Hnow c.
  pose proof (progress_nonneg tw now Hd Hnow) as Hp0.
  pose proof (progress_le_1 tw now) as Hp1.
  apply animateSingle_fields in Htw
    as (_ & _ & _ & _ & _ & (n & Hn & Hfn) & Hs & He).
  assert (Hease : 0 <= easeVal tw now /\ easeVal tw now <= 1).
  { unfold easeVal. rewrite Hfn.
    destruct Hsel as [Hsel | Hsel]; rewrite Hsel in Hn; injection Hn as <-;
      cbn [easing_fn]; unfold linear, easeOutQuad; split; nra. }
  destruct Hease as [He0 He1].
  split; [exact Hp0|]. split; [exact Hp1|].
  split; [exact He0|]. split; [exact He1|].
  subst c. unfold current. rewrite Hs, He.
  cbn [opacity AnimEngine.x AnimEngine.y scale rotate].
  repeat split; apply lerp_between; assumption.
Qed.

Lemma linear_and_quad_tweens_stay_between_witness :
  exists tw,
    @_animateSingle sample_host 0 sample_element half_way_vars = Some tw /\
    0 <= easeVal tw 120 /\ easeVal tw 120 <= 1 /\
    between 0 100 (AnimEngine.x (current tw 120)).
Proof.
  eexists. split; [reflexivity|].
  lazymatch goal with
  | |- 0 <= easeVal ?tw _ /\ _ =>
      destruct (@linear_and_quad_tweens_stay_between sample_host 0
                  sample_element half_way_vars tw 120 eq_refl)
        as (_ & _ & He0 & He1 & Hx & _)
  end.
  - left. reflexivity.
  - compute; congruence.
  - compute; congruence.
  - split; [exact He0|]. split; [exact He1 | exact Hx].
Defined.

Lemma apply_style_writes_nothing `{Host} vars c (style : gmap string string) :
  writes_nothing vars -> apply_style vars c style = style.
Proof.
  intros (Ho & Hx & Hy & Hs & Hr). unfold apply_style, transform_string.
  rewrite Ho, Hx, Hy, Hs, Hr. reflexivity.
Qed.

(** X9.  A tween whose descriptor names none of opacity, a non-zero [x] or
    [y], scale and rotate (the loader bar's, which asks for a [width]) never
    touches the style of its element: each frame, and any chain of frames,
    leaves every field as it was.  It only runs its time and then calls
    [onComplete]. *)
Theorem tween_without_properties_writes_nothing `{Host} tw times now
    (style : gmap string string) :
  writes_nothing (tw_vars tw) ->
  fst (tick tw now style) = style /\
  fst (run_frames tw times style) = style.
Proof.
  intros Hnone.
  assert (Htick : forall t, fst (tick tw t style) = style).
  { intros t. unfold tick.
    destruct (Qltb t (tw_startTime tw)); [reflexivity|].
    rewrite (apply_style_writes_nothing _ _ _ Hnone).
    destruct (Qltb (progress tw t) 1); reflexivity. }
  split; [apply Htick|].
  induction times as [|t rest IH]; [reflexivity|].
  cbn [run_frames]. specialize (Htick t).
  destruct (tick tw t style) as [style' out]. cbn [fst] in Htick. subst style'.
  destruct out; [exact IH | reflexivity].
Qed.

Lemma tween_without_properties_writes_nothing_witness :
  exists tw,
    @_animateSingle sample_host 0 sample_element loader_bar_vars = Some tw /\
    @run_frames sample_host tw [0; 500; 1000] sample_style
      = (sample_style, Complete (Some 1%nat)).
Proof.
  eexists. split; [reflexivity|].
  lazymatch goal with
  | |- run_frames ?tw ?ts ?st = _ =>
      destruct (@tween_without_properties_writes_nothing sample_host tw ts 0 st)
        as [_ Hsame];
        [repeat split |];
      rewrite (surjective_pairing (run_frames tw ts st)), Hsame
  end.
  apply f_equal2; [reflexivity | vm_compute; reflexivity].
Defined.

(** Every call [to] makes is for a resolved element and carries the
    descriptor with a delay put in. *)
Lemma to_forEach_calls vars elements : forall k el v',
  (el, v') ∈ to_forEach vars k elements ->
  Some el ∈ elements /\
  exists index d, v' = with_delay vars d /\
    d = or_default (v_delay vars) 0
        + (if truthy (v_stagger vars)
           then inject_Z (Z.of_nat index) * if_defined (v_stagger vars) 0
           else 0).
Proof.
  induction elements as [|[e|] rest IH]; intros k el v' Hin; simpl in Hin.
  - inversion Hin.
  - apply elem_of_cons in Hin as [Heq | Hin].
    + injection Heq as -> ->. split; [left|]. eauto.
    + destruct (IH _ _ _ Hin) as [Hel Hd]. split; [right; exact Hel | exact Hd].
  - destruct (IH _ _ _ Hin) as [Hel Hd]. split; [right; exact Hel | exact Hd].
Qed.

Lemma to_calls qsa tgt vars el v' :
  (el, v') ∈ to qsa tgt vars ->
  (el, v') ∈ to_forEach vars 0 (resolve_target qsa tgt).
Proof.
  unfold to. destruct (Nat.eqb (length (resolve_target qsa tgt)) 0); [|auto].
  intros Hin. inversion Hin.
Qed.

(** X10.  [to] makes one call of [_animateSingle] per element of the
    resolved target that is not an empty slot, and none at all for a target
    that resolves to nothing or is of no known kind.  Each call gets the
    caller's descriptor with nothing but the delay replaced. *)
Theorem to_hands_descriptor_on qsa tgt vars :
  length (to qsa tgt vars) = length (omap id (resolve_target qsa tgt)) /\
  to qsa OtherTarget vars = [] /\
  (forall el v', (el, v') ∈ to qsa tgt vars ->
     Some el ∈ resolve_target qsa tgt /\
     is_Some (v_delay v') /\
     v_x v' = v_x vars /\ v_y v' = v_y vars /\
     v_opacity v' = v_opacity vars /\ v_scale v' = v_scale vars /\
     v_rotate v' = v_rotate vars /\ v_duration v' = v_duration vars /\
     v_stagger v' = v_stagger vars /\ v_ease v' = v_ease vars /\
     v_onComplete v' = v_onComplete vars).
Proof.
  split; [|split; [reflexivity|]].
  - unfold to. destruct (resolve_target qsa tgt) as [|a rest] eqn:E.
    + reflexivity.
    + cbn [length Nat.eqb]. rewrite <- (to_forEach_order vars (a :: rest) 0).
      symmetry. apply length_map.
  - intros el v' Hin. apply to_calls in Hin.
    destruct (to_forEach_calls _ _ _ _ _ Hin) as (Hel & index & d & -> & _).
    split; [exact Hel|]. cbn. repeat split; eauto.
Qed.

Lemma to_hands_descriptor_on_witness :
  let e0 := {| el_id := 0; computed_opacity := 0 |} in
  let e2 := {| el_id := 2; computed_opacity := 0 |} in
  let calls := to (fun _ => []) (Collection [Some e0; None; Some e2]) cascade_vars in
  length calls = 2%nat /\
  (forall el v', (el, v') ∈ calls -> v_opacity v' = Some 1) /\
  to (fun _ => []) (Selector "section") cascade_vars = [].
Proof.
  intros e0 e2 calls.
  destruct (to_hands_descriptor_on (fun _ => [])
              (Collection [Some e0; None; Some e2]) cascade_vars)
    as (Hlen & _ & Hcalls).
  split; [exact Hlen|]. split; [|reflexivity].
  intros el v' Hin. destruct (Hcalls el v' Hin) as (_ & _ & _ & _ & Ho & _).
  exact Ho.
Defined.

(** X11.  Without a stagger (none given, or 0) every element of the target
    is animated with the same delay, the explicit delay of the descriptor
    or 0 when there is none. *)
Theorem to_without_stagger_uses_one_delay qsa tgt vars el v' :
  truthy (v_stagger vars) = false ->
  (el, v') ∈ to qsa tgt vars ->
  exists d, v_delay v' = Some d /\ d == if_defined (v_delay vars) 0.
Proof.
  intros Hst Hin. apply to_calls in Hin.
  destruct (to_forEach_calls _ _ _ _ _ Hin) as (_ & index & d & -> & Hd).
  exists d. split; [reflexivity|].
  rewrite Hd, Hst, explicit_delay. ring.
Qed.

Lemma to_without_stagger_uses_one_delay_witness :
  let e1 := {| el_id := 1; computed_opacity := 0 |} in
  exists d, v_delay (with_delay hero_visual_vars (0.4 + 0)) = Some d /\ d == 0.4.
Proof.
  intros e1.
  apply (to_without_stagger_uses_one_delay (fun _ => [])
           (Collection [Some sample_element; Some e1]) hero_visual_vars e1
           (with_delay hero_visual_vars (0.4 + 0))); [reflexivity|].
  cbn. right. left.
Defined.

(** ** The scroll trigger, beyond the claims *)

Lemma on_entry_without_once options o e :
  once options = false ->
  observed (on_entry options o e) = observed o /\
  (onEnter options = true -> onLeave options = true ->
   calls (on_entry options o e) = calls o ++ [call_of e]).
Proof.
  intros Honce. unfold on_entry, call_of. rewrite Honce.
  destruct (isIntersecting e), (onEnter options), (onLeave options);
    split; try reflexivity; intros; try discriminate; reflexivity.
Qed.

Lemma notify_without_once options entries : forall o,
  once options = false ->
  observed (notify options o entries) = observed o /\
  (onEnter options = true -> onLeave options = true ->
   calls (notify options o entries) = calls o ++ map call_of entries).
Proof.
  induction entries as [|e rest IH]; intros o Honce; simpl.
  - split; [reflexivity|]. intros _ _. now rewrite app_nil_r.
  - destruct (IH (on_entry options o e) Honce) as [Hobs Hcalls].
    destruct (on_entry_without_once options o e Honce) as [Hobs1 Hcalls1].
    split; [congruence|]. intros He Hl.
    rewrite (Hcalls He Hl), (Hcalls1 He Hl), <- app_assoc. reflexivity.
Qed.

(** X12.  Without [once] the trigger never stops observing anything, and
    with both callbacks given it answers every entry the host delivers with
    exactly one call, [onEnter] for an intersecting entry and [onLeave] for
    any other, in the order of delivery. *)
Theorem without_once_every_entry_calls_back options o batches :
  once options = false ->
  observed (run options o batches) = observed o /\
  (onEnter options = true -> onLeave options = true ->
   calls (run options o batches) = calls o ++ map call_of (concat batches)).
Proof.
  intros Honce. revert o.
  induction batches as [|b rest IH]; intros o.
  - split; [reflexivity|]. intros _ _. simpl. now rewrite app_nil_r.
  - destruct (IH (notify options o b)) as [Hobs Hcalls].
    destruct (notify_without_once options b o Honce) as [Hobs1 Hcalls1].
    unfold run in *. simpl. split; [congruence|]. intros He Hl.
    rewrite (Hcalls He Hl), (Hcalls1 He Hl), map_app, <- app_assoc. reflexivity.
Qed.

Lemma without_once_every_entry_calls_back_witness :
  let options := {| onEnter := true; onLeave := true;
                    threshold := None; once := false |} in
  7%nat ∈ observed (run options sample_observer [[in_view]; [out_of_view; in_view]]) /\
  calls (run options sample_observer [[in_view]; [out_of_view; in_view]])
    = [CallEnter 7; CallLeave 7; CallEnter 7].
Proof.
  intros options.
  destruct (without_once_every_entry_calls_back options sample_observer
              [[in_view]; [out_of_view; in_view]] eq_refl) as [Hobs Hcalls].
  split.
  - rewrite Hobs. simpl. set_solver.
  - rewrite Hcalls by reflexivity. reflexivity.
Defined.

Lemma on_entry_keeps_observing options o e el :
  el ∈ observed o ->
  (entry_target e = el -> isIntersecting e = false) ->
  el ∈ observed (on_entry options o e).
Proof.
  intros Hin Hout. unfold on_entry.
  destruct (isIntersecting e) eqn:Hi.
  - assert (Hne : el <> entry_target e).
    { intros ->. specialize (Hout eq_refl). discriminate. }
    destruct (onEnter options), (once options); simpl;
      rewrite ?elem_of_difference, ?elem_of_singleton; tauto.
  - destruct (onLeave options); exact Hin.
Qed.

Lemma notify_keeps_observing options entries : forall o el,
  el ∈ observed o ->
  Forall (fun e => entry_target e = el -> isIntersecting e = false) entries ->
  el ∈ observed (notify options o entries).
Proof.
  induction entries as [|e rest IH]; intros o el Hin Hall; simpl; [exact Hin|].
  inversion Hall as [|? ? He Hrest]; subst.
  apply IH; [|exact Hrest]. apply on_entry_keeps_observing; assumption.
Qed.

(** X13.  The observer never takes up an element it does not observe, and
    it lets go of an element only on an intersecting entry for that very
    element: whatever the options, an observed element that has only been
    reported out of view is still observed. *)
Theorem observing_ends_only_on_enter options o batches el :
  (forall el', el' ∈ observed (run options o batches) -> el' ∈ observed o) /\
  (el ∈ observed o ->
   Forall (Forall (fun e => entry_target e = el -> isIntersecting e = false))
          batches ->
   el ∈ observed (run options o batches)).
Proof.
  split.
  - revert o. induction batches as [|b rest IH]; intros o el' Hin; [exact Hin|].
    unfold run in *. simpl in Hin. apply IH in Hin. clear IH.
    revert o Hin. induction b as [|e es IHb]; intros o Hin; [exact Hin|].
    simpl in Hin. apply IHb in Hin. eapply on_entry_observed; eassumption.
  - revert o. induction batches as [|b rest IH]; intros o Hin Hall; [exact Hin|].
    inversion Hall as [|? ? Hb Hrest]; subst.
    unfold run in *. simpl. apply IH; [|exact Hrest].
    apply notify_keeps_observing; assumption.
Qed.

Lemma observing_ends_only_on_enter_witness :
  8%nat ∈ observed (run once_options sample_observer [[out_of_view]; [in_view]]).
Proof.
  apply (observing_ends_only_on_enter once_options sample_observer
           [[out_of_view]; [in_view]] 8%nat).
  - simpl. set_solver.
  - repeat constructor; discriminate.
Defined.

(** ** The particle simulation, beyond the claims *)

(** X14.  Once the simulation runs, no event adds, removes or replaces a
    particle and none reads [Math.random]: through any sequence of frames
    and resize events the pool keeps its length, and every particle keeps
    its velocity and its radius. *)
Theorem events_keep_particles_and_velocities s evs :
  length (particles (run_events s evs)) = length (particles s) /\
  map vx (particles (run_events s evs)) = map vx (particles s) /\
  map vy (particles (run_events s evs)) = map vy (particles s) /\
  map size (particles (run_events s evs)) = map size (particles s) /\
  random (run_events s evs) = random s.
Proof.
  revert s. induction evs as [|ev rest IH]; intros s; [repeat split|].
  unfold run_events in *. cbn [fold_left].
  destruct (IH (handle s ev)) as (H1 & H2 & H3 & H4 & H5).
  destruct (handle_keeps_pool_shape s ev) as (G1 & G2 & G3 & G4 & G5).
  repeat split; congruence.
Qed.

Lemma animate_within s :
  0 <= width s -> 0 <= height s ->
  Forall (within (width s) (height s)) (particles (animate s)).
Proof.
  intros Hw Hh. cbn [animate particles]. apply Forall_map, Forall_true.
  intros p. unfold within. rewrite update_x, update_y.
  destruct (wrap_axis (width s) (Particles.x p) (vx p) Hw) as [Hx _].
  destruct (wrap_axis (height s) (Particles.y p) (vy p) Hh) as [Hy _].
  split; assumption.
Qed.

(** X15.  One frame puts every particle within the canvas, wherever it was
    before.  So after a resize event, which leaves particles where they
    were, the next frame has the whole pool within the new canvas. *)
Theorem frame_brings_pool_within_canvas s w h :
  (0 <= width s -> 0 <= height s ->
   Forall (within (width s) (height s)) (particles (handle s Frame))) /\
  (0 <= w -> 0 <= h ->
   width (run_events s [ResizeEvent w h; Frame]) = w /\
   height (run_events s [ResizeEvent w h; Frame]) = h /\
   Forall (within w h) (particles (run_events s [ResizeEvent w h; Frame]))).
Proof.
  split.
  - intros Hw Hh. apply animate_within; assumption.
  - intros Hw Hh. split; [reflexivity|]. split; [reflexivity|].
    apply (animate_within (resize w h s)); assumption.
Qed.

Lemma frame_brings_pool_within_canvas_witness :
  Forall (within 100 100)
    (particles (run_events {| width := 1000; height := 1000;
                              particles := [fast_particle; slow_particle];
                              random := sample_random |}
                  [ResizeEvent 100 100; Frame])).
Proof.
  apply (frame_brings_pool_within_canvas
           {| width := 1000; height := 1000;
              particles := [fast_particle; slow_particle];
              random := sample_random |} 100 100); compute; congruence.
Defined.

(** ** The custom cursor *)

Lemma cursor_frames_S `{Host} n s :
  Cursor.frames (S n) s = Cursor.loop (Cursor.frames n s).
Proof. reflexivity. Qed.

Lemma power_085_step (n : nat) :
  0.85 ^ Z.of_nat (S n) == 0.85 * 0.85 ^ Z.of_nat n.
Proof.
  rewrite Nat2Z.inj_succ, <- Z.add_1_r.
  rewrite Qpower_plus by (compute; congruence). simpl (0.85 ^ 1). ring.
Qed.

Lemma power_085_range (n : nat) :
  0 <= 0.85 ^ Z.of_nat n /\ 0.85 ^ Z.of_nat n <= 1.
Proof.
  induction n as [|n [IH0 IH1]].
  - split; compute; congruence.
  - rewrite power_085_step. split; nra.
Qed.

(** X16.  While the mouse rests, each frame takes the ring 15% of the
    remaining way to the mouse: after [n] frames the ring's distance from
    the mouse is 0.85^n times what it was, on each axis, so the ring closes
    in without ever passing the mouse; the mouse position the code keeps is
    not changed by frames. *)
Theorem ring_closes_in_on_mouse `{Host} (n : nat) (s : Cursor.State) :
  let s' := Cursor.frames n s in
  Cursor.mx s' = Cursor.mx s /\ Cursor.my s' = Cursor.my s /\
  Cursor.mx s - Cursor.rx s' == 0.85 ^ Z.of_nat n * (Cursor.mx s - Cursor.rx s) /\
  Cursor.my s - Cursor.ry s' == 0.85 ^ Z.of_nat n * (Cursor.my s - Cursor.ry s) /\
  Qabs (Cursor.mx s - Cursor.rx s') <= Qabs (Cursor.mx s - Cursor.rx s) /\
  Qabs (Cursor.my s - Cursor.ry s') <= Qabs (Cursor.my s - Cursor.ry s).
Proof.
  cbv zeta.
  assert (Hmain :
    Cursor.mx (Cursor.frames n s) = Cursor.mx s /\
    Cursor.my (Cursor.frames n s) = Cursor.my s /\
    Cursor.mx s - Cursor.rx (Cursor.frames n s)
      == 0.85 ^ Z.of_nat n * (Cursor.mx s - Cursor.rx s) /\
    Cursor.my s - Cursor.ry (Cursor.frames n s)
      == 0.85 ^ Z.of_nat n * (Cursor.my s - Cursor.ry s)).
  { induction n as [|n (Hmx & Hmy & Hrx & Hry)].
    - simpl. repeat split; ring.
    - rewrite cursor_frames_S. unfold Cursor.loop at 1 2 3 4.
      cbn [Cursor.mx Cursor.my Cursor.rx Cursor.ry].
      rewrite Hmx, Hmy, power_085_step.
      split; [reflexivity|]. split; [reflexivity|]. split.
      + rewrite <- Qmult_assoc, <- Hrx. ring.
      + rewrite <- Qmult_assoc, <- Hry. ring. }
  destruct Hmain as (Hmx & Hmy & Hrx & Hry).
  destruct (power_085_range n) as [Hp0 Hp1].
  do 4 (split; [assumption|]).
  split.
  - rewrite Hrx, Qabs_Qmult, (Qabs_pos _ Hp0).
    pose proof (Qabs_nonneg (Cursor.mx s - Cursor.rx s)). nra.
  - rewrite Hry, Qabs_Qmult, (Qabs_pos _ Hp0).
    pose proof (Qabs_nonneg (Cursor.my s - Cursor.ry s)). nra.
Qed.

Lemma cursor_run_app `{Host} s evs1 evs2 :
  Cursor.run s (evs1 ++ evs2) = Cursor.run (Cursor.run s evs1) evs2.
Proof. unfold Cursor.run. apply fold_left_app. Qed.

Lemma cursor_dot_kept `{Host} evs : forall s,
  Forall (fun ev => Cursor.is_mouse_move ev = false) evs ->
  Cursor.dot_style (Cursor.run s evs) = Cursor.dot_style s /\
  Cursor.mx (Cursor.run s evs) = Cursor.mx s /\
  Cursor.my (Cursor.run s evs) = Cursor.my s.
Proof.
  induction evs as [|ev rest IH]; intros s Hall; [repeat split|].
  inversion Hall as [|? ? Hev Hrest]; subst.
  destruct (IH (Cursor.handle s ev) Hrest) as (Hd & Hx & Hy).
  unfold Cursor.run in *. cbn [fold_left]. rewrite Hd, Hx, Hy.
  destruct ev; try discriminate; repeat split.
Qed.

(** X17.  The dot sits exactly where the mouse was last seen: after any
    sequence of events, the dot's transform is the translate to the
    coordinates of the last mouse move, and those are the coordinates the
    ring is heading for; frames and hover events in between change neither.
    Without both the dot and the ring element nothing is set up. *)
Theorem dot_follows_last_mouse_move `{Host} s before cx cy after :
  Forall (fun ev => Cursor.is_mouse_move ev = false) after ->
  let s' := Cursor.run s (before ++ Cursor.MouseMove cx cy :: after) in
  Cursor.dot_style s' !! "transform"%string = Some (Cursor.translate_px cx cy) /\
  Cursor.mx s' = cx /\ Cursor.my s' = cy /\
  (forall ring, Cursor.initCursor None ring = None) /\
  (forall dot, Cursor.initCursor dot None = None).
Proof.
  intros Hafter s'. subst s'.
  rewrite cursor_run_app.
  change (Cursor.run (Cursor.run s before) (Cursor.MouseMove cx cy :: after))
    with (Cursor.run (Cursor.mousemove cx cy (Cursor.run s before)) after).
  destruct (cursor_dot_kept after (Cursor.mousemove cx cy (Cursor.run s before))
              Hafter) as (Hd & Hx & Hy).
  rewrite Hd, Hx, Hy. cbn [Cursor.mousemove Cursor.dot_style Cursor.mx Cursor.my].
  split; [apply lookup_insert_eq|]. split; [reflexivity|]. split; [reflexivity|].
  split; [reflexivity|]. intros [d|]; reflexivity.
Qed.

Lemma dot_follows_last_mouse_move_witness :
  let s' := @Cursor.run sample_host sample_cursor
              [Cursor.AnimationFrame; Cursor.MouseMove 10 20;
               Cursor.MouseEnter; Cursor.AnimationFrame; Cursor.MouseLeave] in
  Cursor.dot_style s' !! "transform"%string = Some "translate(10px, 20px)"%string /\
  Cursor.mx s' = 10 /\ Cursor.my s' = 20.
Proof.
  destruct (@dot_follows_last_mouse_move sample_host sample_cursor
              [Cursor.AnimationFrame] 10 20
              [Cursor.MouseEnter; Cursor.AnimationFrame; Cursor.MouseLeave])
    as (Hd & Hx & Hy & _).
  - repeat constructor.
  - cbv zeta. split; [|split; assumption].
    exact Hd.
Defined.

(** ** Magnetic buttons *)



(** ** The animation toggle *)

Lemma toggle_clicks_S n s :
  Toggle.clicks (S n) s = Toggle.onclick (Toggle.clicks n s).
Proof. reflexivity. Qed.

Lemma toggle_elem (c c' : string) (classes : gset string) :
  c' ∈ Toggle.toggle c classes <->
  (c' = c /\ c ∉ classes) \/ (c' <> c /\ c' ∈ classes).
Proof.
  unfold Toggle.toggle. destruct (decide (c ∈ classes)) as [Hin | Hout].
  - rewrite elem_of_difference, elem_of_singleton. split.
    + intros [Hc Hne]. right. split; assumption.
    + intros [[-> Habs] | [Hne Hc]]; [contradiction | split; assumption].
  - rewrite elem_of_union, elem_of_singleton. split.
    + intros [Hc | ->]; [|left; split; [reflexivity | exact Hout]].
      right. split; [|exact Hc]. intros ->. contradiction.
    + intros [[-> _] | [_ Hc]]; [right; reflexivity | left; exact Hc].
Qed.

(** X19.  For a toggle button whose markup does not start out with the
    class [disabled]: after any number of clicks the animations are marked
    as playing exactly when the number of clicks is even, the button carries
    [disabled] exactly when they are not playing, every other class of the
    button is as it was, and from the first click on the [--play-state]
    variable of the body says [running] or [paused] accordingly. *)
Theorem toggle_state_follows_click_parity classes body s0 (n : nat) :
  Toggle.initToggle (Some classes) body = Some s0 ->
  "disabled"%string ∉ classes ->
  let s := Toggle.clicks n s0 in
  Toggle.isPlaying s = Nat.even n /\
  ("disabled"%string ∈ Toggle.classList s <-> Toggle.isPlaying s = false) /\
  (forall c : string, c <> "disabled"%string ->
     (c ∈ Toggle.classList s <-> c ∈ classes)) /\
  ((0 < n)%nat ->
   Toggle.body_style s !! "--play-state"%string
     = Some (if Toggle.isPlaying s then "running"%string else "paused"%string)) /\
  (forall field : string, field <> "--play-state"%string ->
     Toggle.body_style s !! field = body !! field).
Proof.
  intros Hinit Hclean. injection Hinit as <-. cbv zeta.
  induction n as [|n (Hplay & Hdis & Hother & _ & Hbody)].
  - cbn. split; [reflexivity|]. split.
    + split; [contradiction | discriminate].
    + split; [reflexivity|]. split; [lia|]. reflexivity.
  - rewrite toggle_clicks_S. unfold Toggle.onclick.
    cbn [Toggle.isPlaying Toggle.classList Toggle.body_style].
    rewrite Hplay, Nat.even_succ, <- Nat.negb_even.
    split; [reflexivity|]. split; [|split; [|split]].
    + rewrite toggle_elem, Hdis, Hplay.
      destruct (Nat.even n); cbn; split.
      * reflexivity.
      * intros _. left. split; [reflexivity | discriminate].
      * intros [[_ Habs] | [Habs _]]; congruence.
      * discriminate.
    + intros c Hc. rewrite toggle_elem, (Hother c Hc). tauto.
    + intros _. apply lookup_insert_eq.
    + intros field Hf. rewrite lookup_insert_ne by congruence. apply Hbody, Hf.
Qed.

Lemma toggle_state_follows_click_parity_witness :
  let s0 := {| Toggle.isPlaying := true; Toggle.classList := {["magnetic"%string]};
               Toggle.body_style := ∅ |} in
  Toggle.isPlaying (Toggle.clicks 3 s0) = false /\
  "disabled"%string ∈ Toggle.classList (Toggle.clicks 3 s0) /\
  Toggle.body_style (Toggle.clicks 3 s0) !! "--play-state"%string
    = Some "paused"%string.
Proof.
  intros s0.
  destruct (toggle_state_follows_click_parity {["magnetic"%string]} ∅ s0 3
              eq_refl) as (Hplay & Hdis & _ & Hvar & _).
  - rewrite elem_of_singleton. discriminate.
  - split; [exact Hplay|]. split; [apply Hdis; exact Hplay|].
    rewrite Hvar by lia. rewrite Hplay. reflexivity.
Defined.

(** ** The counters *)

Lemma counter_after_S `{Host} k s :
  Counter.after (S k) s = Counter.interval (Counter.after k s).
Proof. reflexivity. Qed.

Lemma inject_nat_S (k : nat) :
  inject_Z (Z.of_nat (S k)) == inject_Z (Z.of_nat k) + 1.
Proof. rewrite Nat2Z.inj_succ, <- Z.add_1_r, inject_Z_plus. reflexivity. Qed.

Lemma inject_nat_le (k n : nat) :
  (k <= n)%nat -> inject_Z (Z.of_nat k) <= inject_Z (Z.of_nat n).
Proof. intros Hk. rewrite <- Zle_Qle. lia. Qed.

(** While fewer than 30 intervals have fired, a counter with a positive
    target is still running, [k] steps up from 0. *)
Lemma counter_running `{Host} (t : Q) (text : string) :
  0 < t -> forall k, (k <= 29)%nat ->
  let s := Counter.after k (Counter.onEnter t text) in
  Counter.timer s = true /\ Counter.target s = t /\ Counter.step s = t / 30 /\
  Counter.current s == inject_Z (Z.of_nat k) * (t / 30) /\
  ((0 < k)%nat ->
   Counter.innerText s
     = Number_toString (inject_Z (Qfloor (Counter.current s))) +:+ "+").
Proof.
  intros Ht. cbv zeta.
  assert (Hst : 0 < t / 30) by (apply Qlt_shift_div_l; lra).
  assert (Ht30 : t == 30 * (t / 30)) by field.
  induction k as [|k IH]; intros Hk.
  - cbn. repeat split; try ring. lia.
  - destruct IH as (Htimer & Htarget & Hstep & Hcur & _); [lia|].
    rewrite counter_after_S. unfold Counter.interval. rewrite Htimer, Htarget, Hstep.
    pose proof (inject_nat_le (S k) 29 Hk) as Hq. rewrite inject_nat_S in Hq.
    change (inject_Z (Z.of_nat 29)) with 29 in Hq.
    assert (Hnext : Counter.current (Counter.after k (Counter.onEnter t text)) + t / 30
                    == inject_Z (Z.of_nat (S k)) * (t / 30)).
    { rewrite Hcur, inject_nat_S. ring. }
    assert (Hgo : Qle_bool t
               (Counter.current (Counter.after k (Counter.onEnter t text)) + t / 30)
             = false).
    { destruct (Qle_bool _ _) eqn:E; [|reflexivity].
      apply Qle_bool_iff in E. rewrite Hnext, inject_nat_S in E. nra. }
    rewrite Hgo. cbn. repeat split; try reflexivity. exact Hnext.
Qed.

(** In the exact arithmetic of this reading the thirtieth firing finds the
    counter at 29 thirtieths and puts it on the target; from then on it is
    stopped. *)
Lemma counter_stopped `{Host} (t : Q) (text : string) :
  0 < t -> forall k, (30 <= k)%nat ->
  let s := Counter.after k (Counter.onEnter t text) in
  Counter.timer s = false /\ Counter.current s = t /\
  Counter.innerText s = Number_toString (inject_Z (Qfloor t)) +:+ "+".
Proof.
  intros Ht k Hk. cbv zeta. replace k with (30 + (k - 30))%nat by lia.
  induction (k - 30)%nat as [|j IH].
  - rewrite Nat.add_0_r.
    destruct (counter_running t text Ht 29 ltac:(lia))
      as (Htimer & Htarget & Hstep & Hcur & _).
    change 30%nat with (S 29). rewrite counter_after_S.
    unfold Counter.interval. rewrite Htimer, Htarget, Hstep.
    assert (Hstop : Qle_bool t
               (Counter.current (Counter.after 29 (Counter.onEnter t text)) + t / 30)
             = true).
    { apply Qle_bool_iff. rewrite Hcur.
      change (inject_Z (Z.of_nat 29)) with 29.
      assert (Ht30 : t == 30 * (t / 30)) by field. lra. }
    rewrite Hstop. cbn. repeat split.
  - rewrite Nat.add_succ_r, counter_after_S.
    destruct IH as (Htimer & Hcur & Htext).
    unfold Counter.interval. rewrite Htimer. repeat split; assumption.
Qed.

(** X20.  A counter with a positive target keeps running through its first
    29 interval firings, below the target all the while, and has stopped by
    the 31st firing.  From one firing to the next its value does not
    decrease and never exceeds the target; after every firing the element
    shows the value rounded down followed by a plus sign, never more than
    the target rounded down.  Whenever the timer is cleared the counter is
    exactly on the target, shows the target rounded down, and changes no
    more. *)
Theorem counter_runs_then_stops_on_target `{Host} (t : Q) (text : string) (k : nat) :
  0 < t ->
  let s := Counter.after k (Counter.onEnter t text) in
  let s' := Counter.after (S k) (Counter.onEnter t text) in
  ((k < 30)%nat ->
     Counter.timer s = true /\ 0 <= Counter.current s /\ Counter.current s < t) /\
  ((31 <= k)%nat -> Counter.timer s = false) /\
  (Counter.timer s = false ->
     Counter.current s = t /\
     Counter.innerText s = Number_toString (inject_Z (Qfloor t)) +:+ "+" /\
     s' = s) /\
  ((0 < k)%nat ->
     Counter.innerText s
       = Number_toString (inject_Z (Qfloor (Counter.current s))) +:+ "+" /\
     (Qfloor (Counter.current s) <= Qfloor t)%Z) /\
  Counter.current s <= Counter.current s' /\
  Counter.current s' <= t.
Proof.
  intros Ht. cbv zeta.
  assert (Hst : 0 < t / 30) by (apply Qlt_shift_div_l; lra).
  assert (Ht30 : t == 30 * (t / 30)) by field.
  assert (Hbelow : forall j, (j <= 29)%nat ->
            0 <= inject_Z (Z.of_nat j) * (t / 30) /\
            inject_Z (Z.of_nat j) * (t / 30) < t).
  { intros j Hj. pose proof (inject_nat_le j 29 Hj) as Hq.
    pose proof (inject_nat_le 0 j ltac:(lia)) as Hq0.
    change (inject_Z (Z.of_nat 29)) with 29 in Hq.
    change (inject_Z (Z.of_nat 0)) with 0 in Hq0. split; nra. }
  destruct (le_lt_dec k 29) as [Hrun | Hdone].
  - destruct (counter_running t text Ht k Hrun)
      as (Htimer & _ & _ & Hcur & Htext).
    destruct (Hbelow k Hrun) as [Hk0 Hkt].
    split; [intros _; rewrite Hcur; auto|].
    split; [intros Hk; lia|].
    split; [intros Hoff; congruence|].
    split.
    { intros Hpos. split; [exact (Htext Hpos)|].
      apply Qfloor_resp_le. rewrite Hcur. lra. }
    destruct (le_lt_dec (S k) 29) as [Hrun' | Hstop'].
    + destruct (counter_running t text Ht (S k) Hrun') as (_ & _ & _ & Hcur' & _).
      destruct (Hbelow (S k) Hrun') as [_ Hkt'].
      rewrite inject_nat_S in Hkt'. rewrite Hcur, Hcur', inject_nat_S.
      split; lra.
    + destruct (counter_stopped t text Ht (S k) ltac:(lia)) as (_ & Hcur' & _).
      rewrite Hcur', Hcur. split; lra.
  - destruct (counter_stopped t text Ht k ltac:(lia)) as (Htimer & Hcur & Htext).
    destruct (counter_stopped t text Ht (S k) ltac:(lia)) as (_ & Hcur' & _).
    split; [intros Hk; lia|].
    split; [intros _; exact Htimer|].
    split.
    { intros _. split; [exact Hcur|]. split; [exact Htext|].
      rewrite counter_after_S. unfold Counter.interval. rewrite Htimer. reflexivity. }
    split.
    { intros _. rewrite Hcur. split; [exact Htext | lia]. }
    rewrite Hcur, Hcur'. split; lra.
Qed.

Lemma counter_runs_then_stops_on_target_witness :
  Counter.timer (@Counter.after sample_host 15 (Counter.onEnter 250 "0")) = true /\
  Counter.current (@Counter.after sample_host 15 (Counter.onEnter 250 "0")) < 250 /\
  Counter.timer (@Counter.after sample_host 40 (Counter.onEnter 250 "0")) = false /\
  Counter.current (@Counter.after sample_host 40 (Counter.onEnter 250 "0")) = 250 /\
  Counter.innerText (@Counter.after sample_host 40 (Counter.onEnter 250 "0"))
    = "250+"%string.
Proof.
  destruct (@counter_runs_then_stops_on_target sample_host 250 "0" 15)
    as (Hrun & _); [reflexivity|].
  destruct (@counter_runs_then_stops_on_target sample_host 250 "0" 40)
    as (_ & Hdone & Hoff & _); [reflexivity|].
  destruct (Hrun ltac:(lia)) as (Ht15 & _ & Hc15).
  pose proof (Hdone ltac:(lia)) as Ht40.
  destruct (Hoff Ht40) as (Hc40 & Htext40 & _).
  split; [exact Ht15|]. split; [exact Hc15|].
  split; [exact Ht40|]. split; [exact Hc40|]. rewrite Htext40. reflexivity.
Defined.

(** X21.  A counter whose target is 0 or negative (0 is what a missing
    attribute reads as) does not count: the first firing of the interval
    puts it on the target, shows the target rounded down and clears the
    timer. *)
Theorem counter_without_positive_target_stops_at_once `{Host}
    (t : Q) (text : string) (k : nat) :
  t <= 0 ->
  let s := Counter.after (S k) (Counter.onEnter t text) in
  Counter.timer s = false /\ Counter.current s = t /\
  Counter.innerText s = Number_toString (inject_Z (Qfloor t)) +:+ "+".
Proof.
  intros Ht. cbv zeta. induction k as [|k IH].
  - change (Counter.after 1 (Counter.onEnter t text))
      with (Counter.interval (Counter.onEnter t text)).
    unfold Counter.interval, Counter.onEnter.
    cbn [Counter.timer Counter.target Counter.step Counter.current].
    assert (Hstop : Qle_bool t (0 + t / 30) = true).
    { apply Qle_bool_iff. assert (t / 30 == t * (1 # 30)) by field. lra. }
    rewrite Hstop. cbn. repeat split.
  - rewrite counter_after_S. destruct IH as (Htimer & Hcur & Htext).
    unfold Counter.interval. rewrite Htimer. repeat split; assumption.
Qed.

Lemma counter_without_positive_target_stops_at_once_witness :
  Counter.timer (@Counter.after sample_host 1 (Counter.onEnter 0 "")) = false /\
  Counter.innerText (@Counter.after sample_host 3 (Counter.onEnter (-7) ""))
    = "-7+"%string.
Proof.
  destruct (@counter_without_positive_target_stops_at_once sample_host 0 "" 0)
    as (H0 & _); [compute; congruence|].
  destruct (@counter_without_positive_target_stops_at_once sample_host (-7) "" 2)
    as (_ & _ & H7); [compute; congruence|].
  split; [exact H0|]. rewrite H7. reflexivity.
Defined.

(** ** Dynamic content *)

(** Appending one node per item keeps the children there were and puts the
    new nodes behind them, in the order of the items. *)
Lemma append_each_app {A} (make : A -> Content.node) items : forall children,
  Content.append_each make items children = children ++ map make items.
Proof.
  induction items as [|a rest IH]; intros children; cbn.
  - now rewrite app_nil_r.
  - unfold Content.append_each in IH. rewrite IH, <- app_assoc. reflexivity.
Qed.

(** Three copies of a list, read by position. *)
Lemma lookup_three_rounds {A} (l : list A) (i : nat) :
  (i < 3 * length l)%nat -> (l ++ l ++ l) !! i = l !! (i mod length l)%nat.
Proof.
  intros Hi. assert (Hpos : (0 < length l)%nat) by lia.
  destruct (decide (i < length l)%nat) as [H1 | H1].
  - rewrite lookup_app_l, Nat.mod_small by lia. reflexivity.
  - rewrite lookup_app_r by lia.
    destruct (decide (i - length l < length l)%nat) as [H2 | H2].
    + rewrite lookup_app_l by lia. f_equal.
      replace i with ((i - length l) + 1 * length l)%nat at 2 by lia.
      rewrite Nat.Div0.mod_add, Nat.mod_small by lia. reflexivity.
    + rewrite lookup_app_r by lia. f_equal.
      replace i with ((i - length l - length l) + 2 * length l)%nat at 2 by lia.
      rewrite Nat.Div0.mod_add, Nat.mod_small by lia. reflexivity.
Qed.

(** X22.  When both marquees are there, each keeps the children it had and
    gets three rounds of the skills' logos behind them, the same images in
    both: the [i]-th new child is an image of class [marquee-logo] for the
    logo of skill [i mod n].  When either marquee is missing, neither is
    filled. *)
Theorem marquees_get_three_rounds_of_logos skills top bot :
  (exists top' bot',
     Content.fill_marquees skills (Some top) (Some bot) = (Some top', Some bot') /\
     take (length top) top' = top /\ take (length bot) bot' = bot /\
     drop (length top) top' = drop (length bot) bot' /\
     length top' = (length top + 3 * length skills)%nat /\
     forall i sk,
       (i < 3 * length skills)%nat ->
       skills !! (i mod length skills)%nat = Some sk ->
       top' !! (length top + i)%nat
         = Some (Content.Img (Content.createLogo (Content.logo sk) "marquee-logo"))) /\
  (forall m, Content.fill_marquees skills None m = (None, m)) /\
  (forall m, Content.fill_marquees skills m None = (m, None)).
Proof.
  split; [|split; [reflexivity | intros [m|]; reflexivity]].
  unfold Content.fill_marquees. rewrite !append_each_app.
  eexists. eexists. split; [reflexivity|].
  rewrite !take_app_length, !drop_app_length.
  split; [reflexivity|]. split; [reflexivity|]. split; [reflexivity|].
  split.
  - rewrite length_app, length_map, !length_app. unfold Content.logos.
    rewrite length_map. lia.
  - intros i sk Hi Hsk.
    rewrite lookup_app_r by lia.
    replace (length top + i - length top)%nat with i by lia.
    rewrite list_lookup_fmap, lookup_three_rounds
      by (unfold Content.logos; rewrite length_map; exact Hi).
    unfold Content.logos. rewrite length_map, list_lookup_fmap, Hsk.
    reflexivity.
Qed.

Lemma marquees_get_three_rounds_of_logos_witness :
  exists top' bot',
    Content.fill_marquees Content.skills (Some []) (Some []) = (Some top', Some bot') /\
    length top' = 36%nat /\
    top' !! 13%nat
      = Some (Content.Img {| Content.src := "assets/lang/javascript.svg";
                             Content.className := "marquee-logo";
                             Content.alt := "javascript Logo" |}).
Proof.
  destruct (marquees_get_three_rounds_of_logos Content.skills [] [])
    as [(top' & bot' & Hfill & _ & _ & _ & Hlen & Hnth) _].
  exists top', bot'. split; [exact Hfill|]. split; [exact Hlen|].
  apply (Hnth 13%nat {| Content.name := "JavaScript"; Content.logo := "javascript.svg";
                        Content.level := 95 |}); [cbn; lia | reflexivity].
Defined.

(** X23.  The alternative text of a logo is its file name up to the first
    dot, followed by [ Logo]: that stem holds no dot, and the file name is
    the stem alone or the stem, a dot and the rest.  The image source is the
    file name under [assets/lang/]. *)
Theorem logo_alt_is_name_up_to_first_dot (name cls : string) :
  let stem := Content.before_dot name in
  Content.alt (Content.createLogo name cls) = stem +:+ " Logo" /\
  Content.src (Content.createLogo name cls) = "assets/lang/" +:+ name /\
  ("."%char ∉ String.list_ascii_of_string stem) /\
  (name = stem \/ exists rest, name = stem +:+ String "." rest).
Proof.
  cbv zeta. split; [reflexivity|]. split; [reflexivity|].
  induction name as [|c name [IHdot IHsplit]].
  - split; [intros Hin; inversion Hin | left; reflexivity].
  - cbn [Content.before_dot].
    destruct (Ascii.eqb c ".") eqn:E.
    + apply Ascii.eqb_eq in E. subst c.
      split; [intros Hin; inversion Hin|]. right. exists name. reflexivity.
    + apply Ascii.eqb_neq in E. split.
      * cbn [String.list_ascii_of_string]. intros Hin.
        apply elem_of_cons in Hin as [Heq | Hin]; [congruence | contradiction].
      * destruct IHsplit as [Heq | [rest Heq]].
        -- left. change (String c name = String c (Content.before_dot name)).
           now rewrite <- Heq.
        -- right. exists rest.
           change (String c name
                   = String c (Content.before_dot name +:+ String "." rest)).
           now rewrite <- Heq.
Qed.

(** ** What a frame of the simulation draws *)

Lemma dots_connections sqrt p later rest :
  dots (connections sqrt p later ++ rest) = dots rest.
Proof.
  unfold connections, dots.
  induction (List.filter (near sqrt p) later) as [|q qs IH]; [reflexivity|].
  cbn. exact IH.
Qed.

Lemma elem_of_connections sqrt p later a q :
  Segment a q ∈ connections sqrt p later <->
  a = p /\ q ∈ later /\ near sqrt p q = true.
Proof.
  unfold connections. rewrite list_elem_of_fmap. split.
  - intros (q' & [= -> ->] & Hin).
    apply list_elem_of_In, filter_In in Hin as [Hin Hnear].
    split; [reflexivity|]. split; [apply list_elem_of_In; exact Hin | exact Hnear].
  - intros (-> & Hin & Hnear). exists q. split; [reflexivity|].
    apply list_elem_of_In, filter_In. split; [apply list_elem_of_In; exact Hin | exact Hnear].
Qed.

(** X24.  In one frame every particle is moved and drawn once, as a dot at
    its new position, in pool order; the pool after the drawing loop is the
    pool with every particle updated.  A connecting line is drawn exactly
    for the pairs of pool positions [i < j] whose particles pass the
    distance test, and it joins the new position of particle [i] with the
    position particle [j] had before this frame, since [j] is updated only
    later in the loop. *)
Theorem frame_draws_dots_and_later_neighbours sqrt w h pool :
  snd (draw_loop sqrt w h pool) = map (update w h) pool /\
  dots (fst (draw_loop sqrt w h pool)) = map (update w h) pool /\
  (forall p q,
     Segment p q ∈ fst (draw_loop sqrt w h pool) <->
     exists i j a, (i < j)%nat /\ pool !! i = Some a /\ pool !! j = Some q /\
                   p = update w h a /\ near sqrt p q = true).
Proof.
  induction pool as [|a0 later (IHsnd & IHdots & IHseg)].
  - split; [reflexivity|]. split; [reflexivity|].
    intros p q. split; [intros Hin; inversion Hin|].
    intros (i & j & a & _ & Hi & _). discriminate.
  - cbn [draw_loop fst snd map]. split; [now rewrite IHsnd|]. split.
    + change (dots (Dot (update w h a0) :: ?l)) with (update w h a0 :: dots l).
      rewrite dots_connections, IHdots. reflexivity.
    + intros p q. rewrite elem_of_cons, elem_of_app, elem_of_connections, IHseg.
      split.
      * intros [Habs | [(-> & Hin & Hnear) | (i & j & a & Hij & Hi & Hj & Hp & Hnear)]].
        -- discriminate.
        -- apply list_elem_of_lookup in Hin as [j Hj].
           exists 0%nat, (S j), a0. repeat split; [lia | exact Hj | exact Hnear].
        -- exists (S i), (S j), a. repeat split; [lia | exact Hi | exact Hj | exact Hp | exact Hnear].
      * intros (i & j & a & Hij & Hi & Hj & Hp & Hnear). right.
        destruct j as [|j]; [lia|]. cbn in Hj.
        destruct i as [|i].
        -- cbn in Hi. injection Hi as <-. left.
           split; [exact Hp|]. split; [|rewrite <- Hp; exact Hnear].
           apply list_elem_of_lookup. eauto.
        -- cbn in Hi. right. exists i, j, a. repeat split; [lia | exact Hi | exact Hj | exact Hp | exact Hnear].
Qed.

Lemma frame_draws_dots_and_later_neighbours_witness :
  Segment (resting_at 100) (resting_at 219)
    ∈ fst (draw_loop sample_sqrt 800 600
             [resting_at 100; resting_at 400; resting_at 219]) /\
  ~ Segment (resting_at 219) (resting_at 100)
    ∈ fst (draw_loop sample_sqrt 800 600
             [resting_at 100; resting_at 400; resting_at 219]).
Proof.
  destruct (frame_draws_dots_and_later_neighbours sample_sqrt 800 600
              [resting_at 100; resting_at 400; resting_at 219])
    as (_ & _ & Hseg).
  split.
  - apply Hseg. exists 0%nat, 2%nat, (resting_at 100).
    repeat split; try lia; vm_compute; reflexivity.
  - rewrite Hseg. intros (i & j & a & Hij & Hi & Hj & _).
    destruct j as [|[|[|j]]]; try discriminate; lia.
Defined.

(** X25.  Where [Math.sqrt] returns the exact distance [r] of two
    particles, the distance test passes exactly when [r < 120], that is when
    the squared distance is below 14400: particles 119 apart are connected,
    particles 120 apart are not. *)
Theorem connection_rule_is_distance_below_120 sqrt p q r :
  let s := (Particles.x p - Particles.x q) * (Particles.x p - Particles.x q)
           + (Particles.y p - Particles.y q) * (Particles.y p - Particles.y q) in
  sqrt s == r -> 0 <= r -> r * r == s ->
  (near sqrt p q = true <-> r < 120) /\
  (near sqrt p q = true <-> s < 14400).
Proof.
  intros s Hsqrt Hr Hsq. unfold near. cbv zeta. fold s.
  rewrite Qltb_lt, Hsqrt. split; [reflexivity|].
  rewrite <- Hsq. split; intros Hlt; [nra|].
  destruct (Qlt_le_dec r 120) as [Hok | Hbad]; [exact Hok | nra].
Qed.

Lemma connection_rule_is_distance_below_120_witness :
  near sample_sqrt (resting_at 100) (resting_at 219) = true /\
  near sample_sqrt (resting_at 100) (resting_at 220) = false.
Proof.
  destruct (connection_rule_is_distance_below_120 sample_sqrt
              (resting_at 100) (resting_at 219) 119) as [Hnear _];
    [reflexivity | compute; congruence | reflexivity |].
  destruct (connection_rule_is_distance_below_120 sample_sqrt
              (resting_at 100) (resting_at 220) 120) as [Hfar _];
    [reflexivity | compute; congruence | reflexivity |].
  split; [apply Hnear; reflexivity|].
  destruct (near sample_sqrt (resting_at 100) (resting_at 220));
    [|reflexivity].
  destruct Hfar as [Hfar _]. specialize (Hfar eq_refl).
  revert Hfar. compute. congruence.
Defined.

(** ** Tweens over time *)

Lemma progress_monotone tw now1 now2 :
  0 < tw_duration tw -> now1 <= now2 -> progress tw now1 <= progress tw now2.
Proof.
  intros Hd Hnow. unfold progress, elapsed, Math_min.
  apply Q.min_le_compat_r. unfold Qdiv.
  apply Qmult_le_compat_r; [lra|].
  apply Qlt_le_weak, Qinv_lt_0_compat. exact Hd.
Qed.

(** A value interpolated with a larger eased progress lies between the
    value for the smaller one and the end. *)
Lemma lerp_monotone (a b e1 e2 : Q) :
  0 <= e1 -> e1 <= e2 -> e2 <= 1 ->
  between (a + (b - a) * e1) b (a + (b - a) * e2).
Proof.
  intros H0 H12 H1. unfold between.
  destruct (Qlt_le_dec b a) as [Hdown | Hup].
  - assert (P1 : 0 <= (a - b) * (e2 - e1)) by (apply Qmult_le_0_compat; lra).
    assert (P2 : 0 <= (a - b) * (1 - e2)) by (apply Qmult_le_0_compat; lra).
    assert (Hv : b <= a + (b - a) * e1) by lra.
    rewrite (Q.min_r _ _ Hv), (Q.max_l _ _ Hv). split; lra.
  - assert (P1 : 0 <= (b - a) * (e2 - e1)) by (apply Qmult_le_0_compat; lra).
    assert (P2 : 0 <= (b - a) * (1 - e2)) by (apply Qmult_le_0_compat; lra).
    assert (Hv : a + (b - a) * e1 <= b) by lra.
    rewrite (Q.min_l _ _ Hv), (Q.max_r _ _ Hv). split; lra.
Qed.

(** X26.  With [linear] or [easeOutQuad] a tween with a positive duration
    moves one way only: from one frame after the delay to a later one neither
    the progress nor the eased progress decreases, and each of the offsets
    [x] and [y] and the rotation, which start from 0, has at the later
    frame a value between its value at the earlier frame and the value of the
    descriptor. *)
Theorem linear_and_quad_tweens_never_turn_back `{Host}
    perf_now el vars tw now1 now2 :
  _animateSingle perf_now el vars = Some tw ->
  select_easing (v_ease vars) = Easing Linear \/
  select_easing (v_ease vars) = Easing EaseOutQuad ->
  0 < tw_duration tw ->
  tw_startTime tw <= now1 -> now1 <= now2 ->
  let c1 := current tw now1 in
  let c2 := current tw now2 in
  progress tw now1 <= progress tw now2 /\
  easeVal tw now1 <= easeVal tw now2 /\
  between (AnimEngine.x c1) (if_defined (v_x vars) 0) (AnimEngine.x c2) /\
  between (AnimEngine.y c1) (if_defined (v_y vars) 0) (AnimEngine.y c2) /\
  between (rotate c1) (if_defined (v_rotate vars) 0) (rotate c2).
Proof.
  intros Htw Hsel Hd Hstart Hnow c1 c2.
  pose proof (progress_nonneg tw now1 Hd Hstart) as Hp0.
  pose proof (progress_monotone tw now1 now2 Hd Hnow) as Hp12.
  pose proof (progress_le_1 tw now2) as Hp1.
  apply animateSingle_fields in Htw
    as (_ & _ & _ & _ & _ & (n & Hn & Hfn) & Hs & He).
  assert (Hease : 0 <= easeVal tw now1 /\ easeVal tw now1 <= easeVal tw now2
                  /\ easeVal tw now2 <= 1).
  { unfold easeVal. rewrite Hfn.
    destruct Hsel as [Hsel | Hsel]; rewrite Hsel in Hn; injection Hn as <-;
      cbn [easing_fn]; unfold linear, easeOutQuad; repeat split; nra. }
  destruct Hease as (He0 & He12 & He1).
  split; [exact Hp12|]. split; [exact He12|].
  subst c1 c2. unfold current. rewrite Hs, He.
  cbn [opacity AnimEngine.x AnimEngine.y scale rotate].
  repeat split; apply lerp_monotone; assumption.
Qed.

Lemma linear_and_quad_tweens_never_turn_back_witness :
  exists tw,
    @_animateSingle sample_host 0 sample_element half_way_vars = Some tw /\
    easeVal tw 100 <= easeVal tw 300 /\
    between (AnimEngine.x (current tw 100)) 100 (AnimEngine.x (current tw 300)).
Proof.
  eexists. split; [reflexivity|].
  lazymatch goal with
  | |- easeVal ?tw _ <= _ /\ _ =>
      destruct (@linear_and_quad_tweens_never_turn_back sample_host 0
                  sample_element half_way_vars tw 100 300 eq_refl)
        as (_ & Hease & Hx & _)
  end.
  - left. reflexivity.
  - compute; congruence.
  - compute; congruence.
  - compute; congruence.
  - split; [exact Hease | exact Hx].
Defined.
